(** * numeric::LimitedCombination — combinatorics on limited, typed resources

    A shallow embedding of [src/LimitedCombination.hpp] and the properties
    its specification states about it.

    Conventions of the embedding
    - [size_t] is a 64-bit unsigned integer (LP64), [CoreType] is [uint32_t];
      both are values of [Z] and every arithmetic operation of the source is
      followed by its wrap-around.
    - [std::map<AtomType, size_t>] is the list of its entries in iteration
      order, that is, in strictly ascending key order ([map_wf]).
    - [std::vector] is [list]; [v[i]] is [nth_error], whose [None] stands for
      the undefined behaviour of an index that is out of range.  An insert
      that would take the item vector beyond [max_size()] throws
      [std::length_error] ([prepare_fits], [constructor]); [prepare_loop] is
      the loop whose inserts find room.  Running out of storage below that
      bound is not part of the model.
    - [numeric::Combination<CoreType>] lives in [numeric/Combinatorics.hpp];
      the generator is written against its interface
      ([PlainCombinationWalker]). *)

From Stdlib Require Import String Ascii.
From Stdlib Require Import ZArith List Bool Lia Sorted Permutation.
Import ListNotations.
Local Open Scope Z_scope.

(** ** Machine integers *)

Definition size_t_modulus : Z := 2 ^ 64.
Definition CoreType_modulus : Z := 2 ^ 32.

Definition wrap_size_t (z : Z) : Z := z mod size_t_modulus.
Definition wrap_CoreType (z : Z) : Z := z mod CoreType_modulus.

(** [max_size()] of the item vector, a [std::vector<uint32_t>]:
    [PTRDIFF_MAX / sizeof(uint32_t)]. *)
Definition max_size : Z := 2 ^ 61 - 1.

(** [numeric::Mode] *)
Inductive Mode : Type := EXACT | MIN | MAX.

(** What construction throws: [std::invalid_argument] by the constructor
    itself, [std::length_error] by the item vector. *)
Inductive exception : Type := invalid_argument | length_error.

(** ** The interface of [numeric::Combination<CoreType>] *)

Record PlainCombinationWalker : Type := {
  walker : Type;
  Combination_new : list Z -> Z -> Mode -> walker;
  Combination_current : walker -> list Z;
  Combination_next : walker -> bool * walker
}.

(** The walker states one can get to from [Combination(items, size, mode)]. *)
Inductive Combination_reachable (W : PlainCombinationWalker)
          (items : list Z) (size : Z) (mode : Mode) : walker W -> Prop :=
| creach_new :
    Combination_reachable W items size mode (Combination_new W items size mode)
| creach_next w :
    Combination_reachable W items size mode w ->
    Combination_reachable W items size mode (snd (Combination_next W w)).

(** The part of the walker's contract the decoding relies on: a combination
    is drawn from the items the walker was built over. *)
Definition emits_only_items (W : PlainCombinationWalker) : Prop :=
  forall items size mode w,
    Combination_reachable W items size mode w ->
    incl (Combination_current W w) items.

(** The part of the contract on exhaustion: once [next()] has answered
    [false] it keeps doing so. *)
Definition exhaustion_is_terminal (W : PlainCombinationWalker) : Prop :=
  forall w, fst (Combination_next W w) = false ->
            fst (Combination_next W (snd (Combination_next W w))) = false.

(** ** The generator *)

Section LimitedCombination.

Variable AtomType : Type.
(** [operator<] of the atom type. *)
Variable lt : AtomType -> AtomType -> bool.
Variable W : PlainCombinationWalker.

Definition AtomType2CountMap : Type := list (AtomType * Z).
Definition AtomTypeList : Type := list AtomType.
Definition CombinationDescriptor : Type := list Z.

(** A [std::map]: keys strictly ascending, values in the range of [size_t]. *)
Definition map_wf (m : AtomType2CountMap) : Prop :=
  StronglySorted (fun a b => lt a b = true) (map fst m) /\
  Forall (fun e => 0 <= snd e < size_t_modulus) m.

Record LimitedCombination : Type := {
  mAtomTypeAvailablilityMap : AtomType2CountMap;
  mAtomTypeList : AtomTypeList;
  mItems : list Z;
  mpItemCombinationGenerator : walker W;
  mSize : Z;
  mMode : Mode
}.

(** The loop of [prepare()]: [currentType], [mAtomTypeList], [mItems]. *)
Fixpoint prepare_loop (entries : AtomType2CountMap) (currentType : Z)
         (atomTypeList : AtomTypeList) (items : list Z)
  : Z * AtomTypeList * list Z :=
  match entries with
  | [] => (currentType, atomTypeList, items)
  | (atom, numberPerType) :: rest =>
      prepare_loop rest
                   (wrap_CoreType (currentType + 1))
                   (atomTypeList ++ [atom])
                   (repeat currentType (Z.to_nat numberPerType) ++ items)
  end.

Definition prepare (countMap : AtomType2CountMap) (size : Z) (mode : Mode)
  : LimitedCombination :=
  let '(_, atomTypeList, items) := prepare_loop countMap 0 [] [] in
  {| mAtomTypeAvailablilityMap := countMap;
     mAtomTypeList := atomTypeList;
     mItems := items;
     mpItemCombinationGenerator := Combination_new W items size mode;
     mSize := size;
     mMode := mode |}.

(** The value of [currentType] while each entry is handled: the code the
    loop of [prepare()] gives to each key, in iteration order. *)
Fixpoint assignedCodes (entries : AtomType2CountMap) (currentType : Z)
  : list (AtomType * Z) :=
  match entries with
  | [] => []
  | (atom, _) :: rest =>
      (atom, currentType) :: assignedCodes rest (wrap_CoreType (currentType + 1))
  end.

(** The items the loop of [prepare()] puts in front of [mItems]: every
    entry inserts its copies at [mItems.begin()], so the copies of the
    last key come first. *)
Fixpoint encoded (entries : AtomType2CountMap) (currentType : Z) : list Z :=
  match entries with
  | [] => []
  | (_, numberPerType) :: rest =>
      encoded rest (wrap_CoreType (currentType + 1))
      ++ repeat currentType (Z.to_nat numberPerType)
  end.

Fixpoint totalNumberOfAtoms_loop (entries : AtomType2CountMap) (count : Z) : Z :=
  match entries with
  | [] => count
  | (_, n) :: rest => totalNumberOfAtoms_loop rest (wrap_size_t (count + n))
  end.

Definition totalNumberOfAtoms (countMap : AtomType2CountMap) : Z :=
  totalNumberOfAtoms_loop countMap 0.

Definition empty (countMap : AtomType2CountMap) : bool :=
  match countMap with [] => true | _ :: _ => false end.

(** The constructor, as long as the inserts of [prepare()] find room (see
    [constructor] for the exception of the vector). *)
Definition construct (countMap : AtomType2CountMap) (size : Z) (mode : Mode)
  : exception + LimitedCombination :=
  let totalCount := totalNumberOfAtoms countMap in
  if empty countMap || (totalCount =? 0) then inl invalid_argument
  else
    let mSize := if totalCount <? size then totalCount else size in
    inr (prepare countMap mSize mode).

(** Whether every [mItems.insert] of the loop of [prepare()] finds room,
    [size] being [mItems.size()] on entry: an insert of more elements than
    [max_size() - size()] throws [std::length_error]. *)
Fixpoint prepare_fits (entries : AtomType2CountMap) (size : Z) : bool :=
  match entries with
  | [] => true
  | (_, numberPerType) :: rest =>
      if max_size - size <? numberPerType then false
      else prepare_fits rest (size + numberPerType)
  end.

(** The constructor with the exception of the item vector: the check and
    the clamp of the source, then [prepare()], which throws where an insert
    finds no room. *)
Definition constructor (countMap : AtomType2CountMap) (size : Z) (mode : Mode)
  : exception + LimitedCombination :=
  let totalCount := totalNumberOfAtoms countMap in
  if empty countMap || (totalCount =? 0) then inl invalid_argument
  else
    let mSize := if totalCount <? size then totalCount else size in
    if prepare_fits countMap 0 then inr (prepare countMap mSize mode)
    else inl length_error.

(** [std::sort] with [operator<]. *)
Fixpoint sort_insert (x : AtomType) (l : list AtomType) : list AtomType :=
  match l with
  | [] => [x]
  | y :: l' => if lt x y then x :: y :: l' else y :: sort_insert x l'
  end.

Definition sort (l : list AtomType) : list AtomType :=
  fold_right sort_insert [] l.

(** [operator<] is a strict order: of two atoms at most one is less than
    the other, and none is less than itself. *)
Definition asymmetric : Prop :=
  forall a b, lt a b = true -> lt b a = false.

Definition irreflexive : Prop :=
  forall a, lt a a = false.

(** What [std::is_sorted] checks: no element is less than the one before. *)
Definition ascending (l : list AtomType) : Prop :=
  Sorted (fun a b => lt b a = false) l.

Fixpoint mapToAtomTypes_loop (atomTypes : AtomTypeList)
         (combination : CombinationDescriptor) : option (list AtomType) :=
  match combination with
  | [] => Some []
  | code :: rest =>
      match nth_error atomTypes (Z.to_nat code),
            mapToAtomTypes_loop atomTypes rest with
      | Some atom, Some atoms => Some (atom :: atoms)
      | _, _ => None
      end
  end.

Definition mapToAtomTypes (g : LimitedCombination)
           (combination : CombinationDescriptor) : option (list AtomType) :=
  mapToAtomTypes_loop (mAtomTypeList g) combination.

(** Member functions take the object and give it back with their result. *)
Definition Method (X : Type) : Type := LimitedCombination -> X * LimitedCombination.

Definition current : Method (option (list AtomType)) :=
  fun g =>
    let current := Combination_current W (mpItemCombinationGenerator g) in
    (option_map sort (mapToAtomTypes g current), g).

Definition next : Method bool :=
  fun g =>
    let (more, w) := Combination_next W (mpItemCombinationGenerator g) in
    (more,
     {| mAtomTypeAvailablilityMap := mAtomTypeAvailablilityMap g;
        mAtomTypeList := mAtomTypeList g;
        mItems := mItems g;
        mpItemCombinationGenerator := w;
        mSize := mSize g;
        mMode := mMode g |}).

(** [n] calls of [next()]. *)
Fixpoint advance (n : nat) (g : LimitedCombination) : LimitedCombination :=
  match n with
  | O => g
  | S n' => advance n' (snd (next g))
  end.

(** [n] calls of [current()], with every result. *)
Fixpoint poll (n : nat) (g : LimitedCombination)
  : list (option (list AtomType)) * LimitedCombination :=
  match n with
  | O => ([], g)
  | S n' => let (r, g1) := current g in
            let (rs, g2) := poll n' g1 in (r :: rs, g2)
  end.

(** [do { c = current(); } while (next());] with a bound on the rounds. *)
Fixpoint enumerate (fuel : nat) (g : LimitedCombination)
  : option (list (list AtomType)) :=
  match fuel with
  | O => None
  | S fuel' =>
      match fst (current g) with
      | None => None
      | Some c =>
          let (more, g') := next g in
          if more then option_map (cons c) (enumerate fuel' g')
          else Some [c]
      end
  end.

(** The generators a caller can hold: a constructed one, after any number
    of calls to [next()]. *)
Inductive reachable (countMap : AtomType2CountMap) (size : Z) (mode : Mode)
  : LimitedCombination -> Prop :=
| reach_construct g :
    construct countMap size mode = inr g -> reachable countMap size mode g
| reach_next g :
    reachable countMap size mode g -> reachable countMap size mode (snd (next g)).

(** Construct, then enumerate until [next()] answers [false]. *)
Definition enumeration (countMap : AtomType2CountMap) (size : Z) (mode : Mode)
           (fuel : nat) : option (list (list AtomType)) :=
  match construct countMap size mode with
  | inl _ => None
  | inr g => enumerate fuel g
  end.

(** The exact sum of the counts. *)
Definition sum_counts (countMap : AtomType2CountMap) : Z :=
  fold_right (fun e acc => snd e + acc) 0 countMap.

(** [operator<] as a strict total order: besides being asymmetric it is
    transitive, and two atoms neither of which is less than the other are
    the same atom. *)
Definition transitive_lt : Prop :=
  forall a b c, lt a b = true -> lt b c = true -> lt a c = true.

Definition trichotomous : Prop :=
  forall a b, lt a b = false -> lt b a = false -> a = b.

(** The atoms of the map, each as often as the map says, the copies of the
    last key first. *)
Definition atoms_by_availability (countMap : AtomType2CountMap) : list AtomType :=
  flat_map (fun e => repeat (fst e) (Z.to_nat (snd e))) (rev countMap).

(** [n] calls of the walker's [next()]. *)
Fixpoint Combination_advance (n : nat) (w : walker W) : walker W :=
  match n with
  | O => w
  | S n' => Combination_advance n' (snd (Combination_next W w))
  end.


End LimitedCombination.

Arguments mAtomTypeAvailablilityMap {AtomType W} _.
Arguments mAtomTypeList {AtomType W} _.
Arguments mItems {AtomType W} _.
Arguments mpItemCombinationGenerator {AtomType W} _.
Arguments mSize {AtomType W} _.
Arguments mMode {AtomType W} _.
Arguments prepare_loop {AtomType} _ _ _ _.
Arguments prepare {AtomType} W _ _ _.
Arguments assignedCodes {AtomType} _ _.
Arguments encoded {AtomType} _ _.
Arguments totalNumberOfAtoms_loop {AtomType} _ _.
Arguments totalNumberOfAtoms {AtomType} _.
Arguments empty {AtomType} _.
Arguments construct {AtomType} W _ _ _.
Arguments prepare_fits {AtomType} _ _.
Arguments constructor {AtomType} W _ _ _.
Arguments sort_insert {AtomType} lt _ _.
Arguments sort {AtomType} lt _.
Arguments ascending {AtomType} lt _.
Arguments asymmetric {AtomType} lt.
Arguments irreflexive {AtomType} lt.
Arguments map_wf {AtomType} lt _.
Arguments mapToAtomTypes_loop {AtomType} _ _.
Arguments mapToAtomTypes {AtomType W} _ _.
Arguments current {AtomType} lt {W} _.
Arguments next {AtomType W} _.
Arguments advance {AtomType W} _ _.
Arguments poll {AtomType} lt {W} _ _.
Arguments enumerate {AtomType} lt {W} _ _.
Arguments reachable {AtomType} W _ _ _ _.
Arguments sum_counts {AtomType} _.
Arguments transitive_lt {AtomType} lt.
Arguments trichotomous {AtomType} lt.
Arguments atoms_by_availability {AtomType} _.
Arguments enumeration {AtomType} lt W _ _ _ _.

(** ** A walker that follows the contract of section 4.2 *)

Module PlainWalker.

(** Modelled from the spec: numeric::Combination (numeric/Combinatorics.hpp)
    is missing; repeated codes are indistinguishable, so the items are kept
    as (code, number of copies), codes ascending. *)
Fixpoint add_code (c : Z) (groups : list (Z * nat)) : list (Z * nat) :=
  match groups with
  | [] => [(c, 1%nat)]
  | (d, m) :: rest =>
      if c =? d then (d, S m) :: rest
      else if c <? d then (c, 1%nat) :: (d, m) :: rest
      else (d, m) :: add_code c rest
  end.

(** Modelled from the spec: numeric::Combination is missing; the multiset
    of the items handed to its constructor. *)
Definition group_codes (items : list Z) : list (Z * nat) :=
  fold_right add_code [] items.

(** Modelled from the spec: numeric::Combination is missing; every
    combination of exactly [k] items, none using more copies of a code
    than there are, each listed once. *)
Fixpoint combinations_of_size (groups : list (Z * nat)) (k : nat)
  : list (list Z) :=
  match groups with
  | [] => match k with O => [[]] | S _ => [] end
  | (c, m) :: rest =>
      flat_map
        (fun j => map (app (repeat c j)) (combinations_of_size rest (k - j)))
        (rev (seq 0 (S (Nat.min m k))))
  end.

(** Modelled from the spec: numeric::Combination is missing; the sizes a
    mode allows: exactly [size], at least [size], at most [size]. *)
Definition sizes (mode : Mode) (size total : nat) : list nat :=
  match mode with
  | EXACT => [size]
  | MIN => seq size (S total - size)
  | MAX => seq 1 size
  end.

(** Modelled from the spec: numeric::Combination is missing; the cursor is
    the list of the combinations still to come, the present one first. *)
Definition state : Type := list (list Z).

(** Modelled from the spec: the constructor of numeric::Combination, which
    is missing: (items, size, mode). *)
Definition new (items : list Z) (size : Z) (mode : Mode) : state :=
  flat_map (combinations_of_size (group_codes items))
           (sizes mode (Z.to_nat size) (length items)).

(** Modelled from the spec: numeric::Combination::current(), which is
    missing: the walker's present combination. *)
Definition current (w : state) : list Z := hd [] w.

(** Modelled from the spec: numeric::Combination::next(), which is
    missing: advances the cursor and tells whether a new combination
    exists; exhaustion is terminal. *)
Definition next (w : state) : bool * state :=
  match w with
  | _ :: c :: rest => (true, c :: rest)
  | _ => (false, [])
  end.

(** Modelled from the spec: numeric::Combination is missing; the walker
    packaged behind the interface the generator uses. *)
Definition W : PlainCombinationWalker :=
  {| walker := state;
     Combination_new := new;
     Combination_current := current;
     Combination_next := next |}.

End PlainWalker.

(** ** The generator over [std::string], as in the header's example *)

Module StringAtoms.

Definition ltb : string -> string -> bool := String.ltb.

(** items["A"] = 2; items["B"] = 1; items["C"] = 1; *)
Definition items : AtomType2CountMap string :=
  [("A"%string, 2); ("B"%string, 1); ("C"%string, 1)].


(** The combinations the specification lists for [items], size 2, MAX. *)
Definition expected : list (list string) :=
  [ ["A"]; ["B"]; ["C"]; ["A"; "A"]; ["A"; "B"]; ["A"; "C"]; ["B"; "C"] ]%string.

(** LimitedCombination<std::string> combinations(items, 2, MAX); *)
Definition combinations : LimitedCombination string PlainWalker.W :=
  prepare PlainWalker.W items 2 MAX.



(** [SIZE_MAX] copies of one atom and one copy of another. *)
Definition brimful : AtomType2CountMap string :=
  [("A"%string, 2 ^ 64 - 1); ("B"%string, 1)].

End StringAtoms.

(** ** The generator over integers *)

Module IntegerAtoms.

Definition ltb : Z -> Z -> bool := Z.ltb.

(** One copy of each of the atoms 0, 1, ..., n - 1. *)
Definition one_of_each (n : nat) : AtomType2CountMap Z :=
  map (fun i => (Z.of_nat i, 1)) (seq 0 n).

(** Two copies of 10, one of 20 and one of 30. *)
Definition items : AtomType2CountMap Z := [(10, 2); (20, 1); (30, 1)].

(** The generator over [items] with the walker at a given cursor. *)
Definition at_cursor (w : walker PlainWalker.W)
  : LimitedCombination Z PlainWalker.W :=
  {| mAtomTypeAvailablilityMap := items;
     mAtomTypeList := [10; 20; 30];
     mItems := [2; 1; 0; 0];
     mpItemCombinationGenerator := w;
     mSize := 2;
     mMode := MAX |}.

(** A key without copies between two keys with copies. *)
Definition sparse : AtomType2CountMap Z := [(10, 1); (20, 0); (30, 2)].

(** Keys without any copy. *)
Definition barren : AtomType2CountMap Z := [(10, 0); (20, 0)].

(** One atom more than [CoreType] has values. *)
Definition crowd : AtomType2CountMap Z :=
  one_of_each (S (Z.to_nat CoreType_modulus)).

End IntegerAtoms.

(** * Properties *)

(** ** totalNumberOfAtoms *)

Section TotalNumberOfAtoms.

Variable AtomType : Type.
Implicit Types countMap : AtomType2CountMap AtomType.

Lemma size_t_modulus_pos : 0 < size_t_modulus.
Proof. unfold size_t_modulus. lia. Qed.

Lemma totalNumberOfAtoms_loop_sum countMap :
  forall count,
    totalNumberOfAtoms_loop countMap (wrap_size_t count)
    = wrap_size_t (count + sum_counts countMap).
Proof.
  induction countMap as [|[atom n] rest IH]; intros count; simpl.
  - now rewrite Z.add_0_r.
  - rewrite IH. unfold wrap_size_t.
    rewrite <- Z.add_assoc, Zplus_mod_idemp_l. reflexivity.
Qed.

Lemma totalNumberOfAtoms_wraps countMap :
  totalNumberOfAtoms countMap = wrap_size_t (sum_counts countMap).
Proof.
  unfold totalNumberOfAtoms.
  change 0 with (wrap_size_t 0) at 1.
  now rewrite totalNumberOfAtoms_loop_sum.
Qed.

Lemma totalNumberOfAtoms_range countMap :
  0 <= totalNumberOfAtoms countMap < size_t_modulus.
Proof.
  rewrite totalNumberOfAtoms_wraps. unfold wrap_size_t.
  apply Z.mod_pos_bound, size_t_modulus_pos.
Qed.

Lemma totalNumberOfAtoms_sum_range countMap :
  totalNumberOfAtoms countMap = sum_counts countMap mod 2 ^ 64
  /\ (0 <= sum_counts countMap < 2 ^ 64 ->
      totalNumberOfAtoms countMap = sum_counts countMap).
Proof.
  pose proof (totalNumberOfAtoms_wraps countMap) as Hw.
  unfold wrap_size_t, size_t_modulus in Hw.
  split; [exact Hw|].
  intros Hrange. rewrite Hw. now apply Z.mod_small.
Qed.

Lemma sum_counts_nonneg countMap :
  Forall (fun e => 0 <= snd e < size_t_modulus) countMap ->
  0 <= sum_counts countMap.
Proof.
  induction 1 as [|e rest He _ IH]; simpl; lia.
Qed.

End TotalNumberOfAtoms.

(** C6 (as it holds): [totalNumberOfAtoms] is a total function of the map
    alone; it returns the sum of all counts reduced modulo [2 ^ 64], the
    arithmetic of [size_t], hence the sum itself whenever that sum is
    representable, and 0 for the empty map. *)
Theorem totalNumberOfAtoms_sum_modulo :
  forall (AtomType : Type) (countMap : AtomType2CountMap AtomType),
    totalNumberOfAtoms countMap = sum_counts countMap mod 2 ^ 64
    /\ (0 <= sum_counts countMap < 2 ^ 64 ->
        totalNumberOfAtoms countMap = sum_counts countMap)
    /\ totalNumberOfAtoms (@nil (AtomType * Z)) = 0.
Proof.
  intros AtomType countMap.
  pose proof (totalNumberOfAtoms_wraps AtomType countMap) as Hw.
  unfold wrap_size_t, size_t_modulus in Hw.
  repeat split.
  - exact Hw.
  - intros Hrange. rewrite Hw. now apply Z.mod_small.
Qed.

Lemma totalNumberOfAtoms_sum_modulo_witness :
  totalNumberOfAtoms StringAtoms.items = 4
  /\ totalNumberOfAtoms StringAtoms.items = sum_counts StringAtoms.items.
Proof.
  split.
  - reflexivity.
  - apply (totalNumberOfAtoms_sum_modulo string StringAtoms.items).
    vm_compute. split; [discriminate | reflexivity].
Defined.

(** C6 (as stated) fails: the counts [2 ^ 64 - 1] and [1] add up to
    [2 ^ 64], and [totalNumberOfAtoms] returns 0. *)
Lemma totalNumberOfAtoms_not_the_sum :
  map_wf StringAtoms.ltb StringAtoms.brimful
  /\ totalNumberOfAtoms StringAtoms.brimful = 0
  /\ sum_counts StringAtoms.brimful = 2 ^ 64
  /\ totalNumberOfAtoms StringAtoms.brimful <> sum_counts StringAtoms.brimful.
Proof.
  repeat split.
  - repeat constructor.
  - repeat constructor; vm_compute; solve [discriminate | reflexivity].
  - vm_compute. discriminate.
Qed.

(** ** Construction *)

Section Construction.

Variable AtomType : Type.
Variable lt : AtomType -> AtomType -> bool.
Variable W : PlainCombinationWalker.
Implicit Types countMap : AtomType2CountMap AtomType.

Lemma empty_iff countMap : empty countMap = true <-> countMap = [].
Proof. destruct countMap; simpl; split; congruence. Qed.

Lemma construct_throws_iff countMap size mode :
  construct W countMap size mode = inl invalid_argument
  <-> countMap = [] \/ totalNumberOfAtoms countMap = 0.
Proof.
  unfold construct.
  destruct (empty countMap || (totalNumberOfAtoms countMap =? 0)) eqn:E.
  - apply orb_true_iff in E. rewrite empty_iff, Z.eqb_eq in E. tauto.
  - apply orb_false_iff in E. destruct E as [E1 E2].
    apply Z.eqb_neq in E2.
    split; [discriminate|].
    intros [->|H]; [discriminate E1 | contradiction].
Qed.

Lemma construct_returns countMap size mode :
  countMap <> [] -> totalNumberOfAtoms countMap <> 0 ->
  construct W countMap size mode
  = inr (prepare W countMap
                 (if totalNumberOfAtoms countMap <? size
                  then totalNumberOfAtoms countMap else size) mode).
Proof.
  intros Hne Htot. unfold construct.
  destruct countMap as [|e rest]; [contradiction|]. simpl empty.
  apply Z.eqb_neq in Htot. now rewrite Htot.
Qed.

End Construction.

(** ** prepare *)

Section Prepare.

Variable AtomType : Type.
Implicit Types entries countMap : AtomType2CountMap AtomType.

Lemma CoreType_modulus_pos : 0 < CoreType_modulus.
Proof. unfold CoreType_modulus. lia. Qed.

Lemma wrap_CoreType_range z : 0 <= wrap_CoreType z < CoreType_modulus.
Proof. apply Z.mod_pos_bound, CoreType_modulus_pos. Qed.

Lemma wrap_CoreType_le z : 0 <= z -> wrap_CoreType z <= z.
Proof. intros Hz. apply Z.mod_le; [exact Hz | apply CoreType_modulus_pos]. Qed.

Lemma wrap_CoreType_small z : 0 <= z < CoreType_modulus -> wrap_CoreType z = z.
Proof. apply Z.mod_small. Qed.

Lemma prepare_loop_spec entries :
  forall currentType atomTypeList items,
    prepare_loop entries currentType atomTypeList items
    = (fst (fst (prepare_loop entries currentType [] [])),
       atomTypeList ++ map fst entries,
       encoded entries currentType ++ items).
Proof.
  induction entries as [|[atom n] rest IH]; intros c al it; simpl.
  - now rewrite app_nil_r.
  - rewrite IH. rewrite (IH _ [atom] (repeat c (Z.to_nat n) ++ [])).
    simpl. now rewrite <- !app_assoc.
Qed.

Lemma prepare_fields (W : PlainCombinationWalker) countMap size mode :
  prepare W countMap size mode
  = {| mAtomTypeAvailablilityMap := countMap;
       mAtomTypeList := map fst countMap;
       mItems := encoded countMap 0;
       mpItemCombinationGenerator :=
         Combination_new W (encoded countMap 0) size mode;
       mSize := size;
       mMode := mode |}.
Proof.
  unfold prepare. rewrite prepare_loop_spec. simpl.
  now rewrite app_nil_r.
Qed.

(** Whatever the wrap-around does, a code stays below the number of keys
    seen so far. *)
Lemma encoded_bound entries :
  forall currentType code,
    0 <= currentType ->
    In code (encoded entries currentType) ->
    0 <= code < currentType + Z.of_nat (length entries).
Proof.
  induction entries as [|[atom n] rest IH]; intros c code Hc Hin; simpl in *.
  - contradiction.
  - apply in_app_or in Hin. destruct Hin as [Hin|Hin].
    + apply IH in Hin; [|apply wrap_CoreType_range].
      pose proof (wrap_CoreType_le (c + 1)). lia.
    + apply repeat_spec in Hin. lia.
Qed.

(** Without wrap-around the codes handed out from [currentType] on are
    not below it. *)
Lemma encoded_lower entries :
  forall currentType code,
    0 <= currentType ->
    currentType + Z.of_nat (length entries) <= CoreType_modulus ->
    In code (encoded entries currentType) ->
    currentType <= code.
Proof.
  induction entries as [|[atom n] rest IH]; intros c code Hc Hfit Hin;
    simpl in *.
  - contradiction.
  - apply in_app_or in Hin. destruct Hin as [Hin|Hin].
    + destruct rest as [|e rest']; [contradiction|].
      rewrite wrap_CoreType_small in Hin by (simpl length in Hfit; lia).
      apply IH in Hin; simpl length in *; lia.
    + apply repeat_spec in Hin. lia.
Qed.

Lemma encoded_length entries :
  forall currentType,
    Forall (fun e => 0 <= snd e < size_t_modulus) entries ->
    Z.of_nat (length (encoded entries currentType)) = sum_counts entries.
Proof.
  induction entries as [|[atom n] rest IH]; intros c Hwf; simpl.
  - reflexivity.
  - inversion Hwf as [|e l He Hrest]; subst. simpl in He.
    rewrite length_app, repeat_length, Nat2Z.inj_add, IH by assumption.
    rewrite Z2Nat.id by lia. lia.
Qed.

Lemma assignedCodes_nth entries :
  forall currentType i atom n,
    0 <= currentType < CoreType_modulus ->
    nth_error entries i = Some (atom, n) ->
    nth_error (assignedCodes entries currentType) i
    = Some (atom, wrap_CoreType (currentType + Z.of_nat i)).
Proof.
  induction entries as [|[a m] rest IH]; intros c i atom n Hc Hi.
  - destruct i; discriminate.
  - destruct i as [|i]; simpl in *.
    + inversion Hi; subst. rewrite Z.add_0_r.
      now rewrite wrap_CoreType_small.
    + rewrite (IH _ _ _ _ (wrap_CoreType_range _) Hi).
      do 2 f_equal. unfold wrap_CoreType.
      rewrite Zplus_mod_idemp_l. f_equal. lia.
Qed.

(** Without wrap-around the code of an entry occurs as often as the entry
    says. *)
Lemma encoded_count entries :
  forall currentType i atom n,
    0 <= currentType ->
    currentType + Z.of_nat (length entries) <= CoreType_modulus ->
    nth_error entries i = Some (atom, n) ->
    count_occ Z.eq_dec (encoded entries currentType) (currentType + Z.of_nat i)
    = Z.to_nat n.
Proof.
  induction entries as [|[a m] rest IH]; intros c i atom n Hc Hfit Hi.
  - destruct i; discriminate.
  - simpl encoded. rewrite count_occ_app. simpl length in Hfit.
    destruct i as [|i]; simpl in Hi.
    + inversion Hi; subst. rewrite Z.add_0_r.
      rewrite count_occ_repeat_eq by reflexivity.
      rewrite (proj1 (count_occ_not_In Z.eq_dec _ _)); [reflexivity|].
      intros Hin. destruct rest as [|e rest']; [contradiction|].
      rewrite wrap_CoreType_small in Hin by (simpl length in Hfit; lia).
      apply encoded_lower in Hin; simpl length in *; lia.
    + rewrite count_occ_repeat_neq by lia.
      assert (Hlen : (i < length rest)%nat)
        by (apply nth_error_Some; congruence).
      rewrite wrap_CoreType_small by lia.
      replace (c + Z.of_nat (S i)) with (c + 1 + Z.of_nat i) by lia.
      rewrite (IH (c + 1) i atom n) by (assumption || lia). lia.
Qed.

Lemma encoded_app entries1 entries2 :
  forall currentType,
    0 <= currentType < CoreType_modulus ->
    encoded (entries1 ++ entries2) currentType
    = encoded entries2 (wrap_CoreType (currentType + Z.of_nat (length entries1)))
      ++ encoded entries1 currentType.
Proof.
  induction entries1 as [|[a m] rest IH]; intros c Hc.
  - simpl. rewrite Z.add_0_r, wrap_CoreType_small, app_nil_r by assumption.
    reflexivity.
  - simpl app. simpl encoded. rewrite IH by apply wrap_CoreType_range.
    rewrite app_assoc. do 2 f_equal. unfold wrap_CoreType.
    rewrite Zplus_mod_idemp_l. do 2 f_equal. simpl length. lia.
Qed.

End Prepare.

(** ** The walker of section 4.2 keeps its contract *)

Module PlainWalkerFacts.
Import PlainWalker.

Lemma add_code_fst c groups :
  forall x, In x (map fst (add_code c groups)) -> x = c \/ In x (map fst groups).
Proof.
  induction groups as [|[d m] rest IH]; intros x Hin; simpl in *.
  - intuition congruence.
  - destruct (c =? d) eqn:E.
    + apply Z.eqb_eq in E. subst. simpl in Hin. tauto.
    + destruct (c <? d); simpl in Hin.
      * intuition congruence.
      * destruct Hin as [Hin|Hin]; [tauto|]. apply IH in Hin. tauto.
Qed.

Lemma group_codes_fst items :
  forall x, In x (map fst (group_codes items)) -> In x items.
Proof.
  induction items as [|c rest IH]; intros x Hin; simpl in *.
  - contradiction.
  - apply add_code_fst in Hin. destruct Hin as [->|Hin]; auto.
Qed.

Lemma combinations_of_size_codes groups :
  forall k combination x,
    In combination (combinations_of_size groups k) ->
    In x combination -> In x (map fst groups).
Proof.
  induction groups as [|[c m] rest IH]; intros k combination x Hc Hx.
  - destruct k; simpl in Hc; [|contradiction].
    destruct Hc as [<-|[]]. contradiction.
  - simpl in Hc. apply in_flat_map in Hc. destruct Hc as [j [_ Hc]].
    apply in_map_iff in Hc. destruct Hc as [tail [<- Htail]].
    apply in_app_or in Hx. destruct Hx as [Hx|Hx].
    + apply repeat_spec in Hx. left. now subst.
    + right. eapply IH; eassumption.
Qed.

Lemma new_codes items size mode :
  forall combination x,
    In combination (new items size mode) -> In x combination -> In x items.
Proof.
  intros combination x Hc Hx. unfold new in Hc.
  apply in_flat_map in Hc. destruct Hc as [k [_ Hc]].
  apply group_codes_fst. eapply combinations_of_size_codes; eassumption.
Qed.

Lemma next_keeps w :
  forall combination, In combination (snd (next w)) -> In combination w.
Proof.
  destruct w as [|a [|b rest]]; simpl; intros combination H; tauto.
Qed.

Lemma reachable_keeps items size mode (w : walker W) :
  Combination_reachable W items size mode w ->
  forall combination, In combination w -> In combination (new items size mode).
Proof.
  induction 1 as [|w Hw IH]; intros combination Hin.
  - exact Hin.
  - apply IH. now apply next_keeps.
Qed.

Lemma emits_only_items_holds : emits_only_items W.
Proof.
  intros items size mode w Hw x Hx.
  destruct w as [|combination rest]; [contradiction|].
  simpl in Hx.
  apply (new_codes items size mode combination); [|exact Hx].
  eapply reachable_keeps; [exact Hw | now left].
Qed.

Lemma exhaustion_is_terminal_holds : exhaustion_is_terminal W.
Proof.
  intros w. destruct w as [|a [|b rest]]; simpl; intros H;
    (reflexivity || discriminate).
Qed.

End PlainWalkerFacts.

(** ** current and next *)

Section Cursor.

Variable AtomType : Type.
Variable lt : AtomType -> AtomType -> bool.
Variable W : PlainCombinationWalker.
Implicit Types countMap : AtomType2CountMap AtomType.
Implicit Types g : LimitedCombination AtomType W.

Lemma sort_insert_perm x l : Permutation (x :: l) (sort_insert lt x l).
Proof.
  induction l as [|y l IH]; simpl.
  - reflexivity.
  - destruct (lt x y); [reflexivity|].
    rewrite perm_swap. now apply perm_skip.
Qed.

Lemma sort_perm l : Permutation l (sort lt l).
Proof.
  induction l as [|x l IH]; simpl.
  - reflexivity.
  - rewrite <- sort_insert_perm. now apply perm_skip.
Qed.

Lemma sort_insert_ascending x l :
  asymmetric lt -> ascending lt l -> ascending lt (sort_insert lt x l).
Proof.
  intros Hasym. unfold ascending.
  induction l as [|y l IH]; intros Hl; simpl.
  - repeat constructor.
  - destruct (lt x y) eqn:Exy.
    + constructor; [exact Hl|]. constructor. now apply Hasym.
    + inversion Hl as [|y' l' Hl' Hhd]; subst.
      constructor; [now apply IH|].
      destruct l as [|z l]; simpl.
      * now constructor.
      * destruct (lt x z); constructor; [exact Exy|].
        now inversion Hhd.
Qed.

Lemma sort_ascending l : asymmetric lt -> ascending lt (sort lt l).
Proof.
  intros Hasym. induction l as [|x l IH]; simpl.
  - constructor.
  - now apply sort_insert_ascending.
Qed.

Lemma mapToAtomTypes_loop_defined (atomTypes : list AtomType)
      (combination : list Z) :
  Forall (fun code => 0 <= code < Z.of_nat (length atomTypes)) combination ->
  exists atoms,
    mapToAtomTypes_loop atomTypes combination = Some atoms
    /\ Forall2 (fun code atom => nth_error atomTypes (Z.to_nat code) = Some atom)
               combination atoms.
Proof.
  induction 1 as [|code rest Hcode _ [atoms [IH1 IH2]]]; simpl.
  - exists []. split; [reflexivity | constructor].
  - destruct (nth_error atomTypes (Z.to_nat code)) as [atom|] eqn:E.
    + rewrite IH1. exists (atom :: atoms). split; [reflexivity|].
      now constructor.
    + apply nth_error_None in E. lia.
Qed.

Lemma next_fields g :
  mAtomTypeAvailablilityMap (snd (next g)) = mAtomTypeAvailablilityMap g
  /\ mAtomTypeList (snd (next g)) = mAtomTypeList g
  /\ mItems (snd (next g)) = mItems g
  /\ mSize (snd (next g)) = mSize g
  /\ mMode (snd (next g)) = mMode g
  /\ mpItemCombinationGenerator (snd (next g))
     = snd (Combination_next W (mpItemCombinationGenerator g))
  /\ fst (next g) = fst (Combination_next W (mpItemCombinationGenerator g)).
Proof.
  unfold next.
  destruct (Combination_next W (mpItemCombinationGenerator g)); simpl.
  repeat split.
Qed.

(** What stays true of a generator from its construction on. *)
Lemma reachable_invariant countMap size mode g :
  reachable W countMap size mode g ->
  countMap <> []
  /\ mAtomTypeAvailablilityMap g = countMap
  /\ mAtomTypeList g = map fst countMap
  /\ mItems g = encoded countMap 0
  /\ Combination_reachable W (mItems g) (mSize g) (mMode g)
                           (mpItemCombinationGenerator g).
Proof.
  induction 1 as [g Hg | g Hg IH].
  - unfold construct in Hg.
    destruct (empty countMap || (totalNumberOfAtoms countMap =? 0)) eqn:E;
      [discriminate|].
    apply orb_false_iff in E. destruct E as [E _].
    injection Hg as <-. rewrite prepare_fields. simpl.
    repeat split; try constructor.
    intros ->. discriminate E.
  - destruct (next_fields g) as (H1 & H2 & H3 & H4 & H5 & H6 & _).
    destruct IH as (I0 & I1 & I2 & I3 & I4).
    rewrite H1, H2, H3, H4, H5, H6.
    repeat split; try assumption. now constructor.
Qed.

Lemma items_in_bounds countMap :
  Forall (fun code => 0 <= code < Z.of_nat (length (map fst countMap)))
         (encoded countMap 0).
Proof.
  apply Forall_forall. intros code Hin.
  apply encoded_bound in Hin; [|lia]. rewrite length_map. lia.
Qed.

Lemma advance_next n :
  forall g, advance (S n) g = snd (next (advance n g)).
Proof.
  induction n as [|n IH]; intros g.
  - reflexivity.
  - change (advance (S (S n)) g) with (advance (S n) (snd (next g))).
    now rewrite IH.
Qed.

Lemma exhaustion_persists :
  exhaustion_is_terminal W ->
  forall g n m,
    fst (next (advance n g)) = false -> (n <= m)%nat ->
    fst (next (advance m g)) = false.
Proof.
  intros Hterm g n m Hn Hle.
  induction Hle as [|m Hle IH]; [exact Hn|].
  rewrite advance_next.
  destruct (next_fields (advance m g)) as (_ & _ & _ & _ & _ & Hw & Hb).
  destruct (next_fields (snd (next (advance m g)))) as (_ & _ & _ & _ & _ & _ & Hb').
  rewrite Hb', Hw. apply Hterm. now rewrite <- Hb.
Qed.

End Cursor.

Lemma string_ltb_asymmetric : asymmetric StringAtoms.ltb.
Proof.
  intros a b. unfold StringAtoms.ltb, String.ltb.
  rewrite (String.compare_antisym a b).
  destruct (String.compare b a); simpl; congruence.
Qed.

(** C10: the codes in the encoded item list are all below the length of
    the code-to-atom table, which is the number of distinct atoms; so when
    the walker emits only codes that occur in that list, every
    [mAtomTypeList[code]] of [mapToAtomTypes] is within bounds and the
    decoding is defined. *)
Theorem decoding_in_bounds :
  forall (AtomType : Type) (W : PlainCombinationWalker)
         (countMap : AtomType2CountMap AtomType) (size : Z) (mode : Mode)
         (g : LimitedCombination AtomType W),
    reachable W countMap size mode g ->
    incl (Combination_current W (mpItemCombinationGenerator g)) (mItems g) ->
    length (mAtomTypeList g) = length countMap
    /\ Forall (fun code => 0 <= code < Z.of_nat (length (mAtomTypeList g)))
              (mItems g)
    /\ Forall (fun code =>
                 (Z.to_nat code < length (mAtomTypeList g))%nat
                 /\ exists atom,
                     nth_error (mAtomTypeList g) (Z.to_nat code) = Some atom)
              (Combination_current W (mpItemCombinationGenerator g))
    /\ mapToAtomTypes g (Combination_current W (mpItemCombinationGenerator g))
       <> None.
Proof.
  intros AtomType W countMap size mode g Hreach Hincl.
  destruct (reachable_invariant AtomType W countMap size mode g Hreach)
    as (_ & _ & Hlist & Hitems & _).
  assert (Hbound : Forall (fun code => 0 <= code < Z.of_nat (length (mAtomTypeList g)))
                          (mItems g)).
  { rewrite Hlist, Hitems. apply items_in_bounds. }
  assert (Hcur : Forall (fun code => 0 <= code < Z.of_nat (length (mAtomTypeList g)))
                        (Combination_current W (mpItemCombinationGenerator g))).
  { apply Forall_forall. intros code Hin.
    apply Hincl in Hin. revert code Hin. now apply Forall_forall. }
  repeat split.
  - rewrite Hlist. apply length_map.
  - exact Hbound.
  - apply Forall_forall. intros code Hin.
    assert (Hc := proj1 (Forall_forall _ _) Hcur code Hin). simpl in Hc.
    assert (Hlt : (Z.to_nat code < length (mAtomTypeList g))%nat) by lia.
    split; [exact Hlt|].
    destruct (nth_error (mAtomTypeList g) (Z.to_nat code)) as [atom|] eqn:E.
    + now exists atom.
    + apply nth_error_None in E. lia.
  - unfold mapToAtomTypes.
    destruct (mapToAtomTypes_loop_defined AtomType _ _ Hcur) as [atoms [E _]].
    rewrite E. discriminate.
Qed.

Lemma decoding_in_bounds_witness :
  reachable PlainWalker.W StringAtoms.items 2 MAX StringAtoms.combinations
  /\ mapToAtomTypes StringAtoms.combinations
                    (Combination_current
                       PlainWalker.W
                       (mpItemCombinationGenerator StringAtoms.combinations))
     <> None.
Proof.
  assert (H : reachable PlainWalker.W StringAtoms.items 2 MAX
                        StringAtoms.combinations)
    by (apply reach_construct; reflexivity).
  split; [exact H|].
  apply (decoding_in_bounds string PlainWalker.W StringAtoms.items 2 MAX
                            StringAtoms.combinations H).
  intros code Hin. vm_compute in Hin. vm_compute.
  destruct Hin as [<-|[]]. tauto.
Defined.

(** C1: for a generator as constructed and advanced by [next()], over a
    walker that emits only codes of its items, [current()] returns the
    walker's code sequence decoded element by element through the
    code-to-atom table and then sorted; what it returns is ascending in the
    order of the atom type. *)
Theorem current_sorted_decoding :
  forall (AtomType : Type) (lt : AtomType -> AtomType -> bool)
         (W : PlainCombinationWalker)
         (countMap : AtomType2CountMap AtomType) (size : Z) (mode : Mode)
         (g : LimitedCombination AtomType W),
    asymmetric lt ->
    emits_only_items W ->
    reachable W countMap size mode g ->
    exists atoms,
      Forall2 (fun code atom =>
                 nth_error (mAtomTypeList g) (Z.to_nat code) = Some atom)
              (Combination_current W (mpItemCombinationGenerator g)) atoms
      /\ fst (current lt g) = Some (sort lt atoms)
      /\ Permutation atoms (sort lt atoms)
      /\ ascending lt (sort lt atoms).
Proof.
  intros AtomType lt W countMap size mode g Hasym Hemit Hreach.
  destruct (reachable_invariant AtomType W countMap size mode g Hreach)
    as (_ & _ & Hlist & Hitems & Hw).
  apply Hemit in Hw.
  assert (Hcur : Forall (fun code => 0 <= code < Z.of_nat (length (mAtomTypeList g)))
                        (Combination_current W (mpItemCombinationGenerator g))).
  { apply Forall_forall. intros code Hin. apply Hw in Hin.
    rewrite Hlist. rewrite Hitems in Hin.
    revert code Hin. apply Forall_forall, items_in_bounds. }
  destruct (mapToAtomTypes_loop_defined AtomType _ _ Hcur) as [atoms [E HF]].
  exists atoms. repeat split.
  - exact HF.
  - unfold current, mapToAtomTypes. simpl. now rewrite E.
  - apply sort_perm.
  - now apply sort_ascending.
Qed.

Lemma current_sorted_decoding_witness :
  exists atoms,
    fst (current StringAtoms.ltb (advance 3 StringAtoms.combinations))
    = Some (sort StringAtoms.ltb atoms)
    /\ ascending StringAtoms.ltb (sort StringAtoms.ltb atoms).
Proof.
  destruct (current_sorted_decoding
              string StringAtoms.ltb PlainWalker.W StringAtoms.items 2 MAX
              (advance 3 StringAtoms.combinations)
              string_ltb_asymmetric
              PlainWalkerFacts.emits_only_items_holds)
    as [atoms (_ & Hcur & _ & Hasc)].
  - change (advance 3 StringAtoms.combinations)
      with (snd (next (snd (next (snd (next StringAtoms.combinations)))))).
    do 3 apply reach_next. apply reach_construct. reflexivity.
  - exists atoms. split; assumption.
Defined.

(** C8: [current()] leaves the generator as it found it: any number of
    calls in a row return the same sequence, and the enumeration goes on
    from the same state afterwards. *)
Theorem current_no_side_effect :
  forall (AtomType : Type) (lt : AtomType -> AtomType -> bool)
         (W : PlainCombinationWalker) (g : LimitedCombination AtomType W)
         (n : nat),
    snd (current lt g) = g
    /\ poll lt n g = (repeat (fst (current lt g)) n, g)
    /\ next (snd (poll lt n g)) = next g
    /\ forall fuel, enumerate lt fuel (snd (poll lt n g)) = enumerate lt fuel g.
Proof.
  intros AtomType lt W g n.
  assert (Hpoll : poll lt n g = (repeat (fst (current lt g)) n, g)).
  { induction n as [|n IH]; simpl.
    - reflexivity.
    - now rewrite IH. }
  rewrite Hpoll. simpl. repeat split.
Qed.

(** C9: with the walker of section 4.2, once [next()] has returned [false]
    every later call returns [false] too. *)
Theorem exhaustion_terminal :
  forall (AtomType : Type) (countMap : AtomType2CountMap AtomType)
         (size : Z) (mode : Mode)
         (g : LimitedCombination AtomType PlainWalker.W) (n m : nat),
    construct PlainWalker.W countMap size mode = inr g ->
    fst (next (advance n g)) = false ->
    (n <= m)%nat ->
    fst (next (advance m g)) = false.
Proof.
  intros AtomType countMap size mode g n m _ Hn Hle.
  eapply exhaustion_persists; eauto.
  apply PlainWalkerFacts.exhaustion_is_terminal_holds.
Qed.

Lemma exhaustion_terminal_witness :
  fst (next (advance 2 StringAtoms.combinations)) = true
  /\ fst (next (advance 6 StringAtoms.combinations)) = false
  /\ fst (next (advance 9 StringAtoms.combinations)) = false.
Proof.
  split; [reflexivity|]. split; [reflexivity|].
  apply (exhaustion_terminal string StringAtoms.items 2 MAX
                             StringAtoms.combinations 6 9).
  - reflexivity.
  - reflexivity.
  - lia.
Defined.

(** C7: for the availability A:2, B:1, C:1 with size 2 and mode MAX the
    enumeration stops after seven combinations, which are, as a set, {A},
    {B}, {C}, {A,A}, {A,B}, {A,C}, {B,C}; none is repeated, none takes more
    copies of an atom than are available, and {B,B} and {C,C} do not
    occur. *)
Theorem header_example_enumeration :
  exists combinations,
    enumeration StringAtoms.ltb PlainWalker.W StringAtoms.items 2 MAX 7
    = Some combinations
    /\ length combinations = 7%nat
    /\ NoDup combinations
    /\ (forall c, In c combinations <-> In c StringAtoms.expected)
    /\ Forall (fun c =>
                 Forall (fun e => Z.of_nat (count_occ string_dec c (fst e)) <= snd e)
                        StringAtoms.items)
              combinations
    /\ ~ In ["B"; "B"]%string combinations
    /\ ~ In ["C"; "C"]%string combinations.
Proof.
  eexists. split; [vm_compute; reflexivity|].
  split; [reflexivity|].
  split.
  { repeat (constructor; [simpl; intuition discriminate|]). constructor. }
  split.
  { intros c. unfold StringAtoms.expected. simpl. tauto. }
  split.
  { repeat constructor; vm_compute; discriminate. }
  split; simpl; intuition discriminate.
Qed.

(** ** The codes and the encoded items *)

Section Codes.

Variable AtomType : Type.
Variable lt : AtomType -> AtomType -> bool.
Implicit Types entries countMap : AtomType2CountMap AtomType.

Lemma assignedCodes_keys entries :
  forall currentType, map fst (assignedCodes entries currentType) = map fst entries.
Proof.
  induction entries as [|[a m] rest IH]; intros c; simpl; [|rewrite IH];
    reflexivity.
Qed.

Lemma assignedCodes_codes entries :
  forall currentType,
    0 <= currentType ->
    currentType + Z.of_nat (length entries) <= CoreType_modulus ->
    map snd (assignedCodes entries currentType)
    = map Z.of_nat (seq (Z.to_nat currentType) (length entries)).
Proof.
  induction entries as [|[a m] rest IH]; intros c Hc Hfit; simpl.
  - reflexivity.
  - simpl length in Hfit. rewrite Z2Nat.id by exact Hc. f_equal.
    destruct rest as [|e rest']; [reflexivity|].
    rewrite wrap_CoreType_small by (simpl length in Hfit; lia).
    rewrite IH by lia. do 2 f_equal. lia.
Qed.

Lemma NoDup_map_of_nat (l : list nat) : NoDup l -> NoDup (map Z.of_nat l).
Proof.
  induction 1 as [|x l Hx Hl IH]; simpl; constructor; [|exact IH].
  intros Hin. apply in_map_iff in Hin. destruct Hin as [y [Hy Hin]].
  apply Nat2Z.inj in Hy. now subst.
Qed.

Lemma strictly_ascending_NoDup (l : list AtomType) :
  irreflexive lt ->
  StronglySorted (fun a b => lt a b = true) l -> NoDup l.
Proof.
  intros Hirr. induction 1 as [|a l Hl IH Hall]; constructor; [|exact IH].
  intros Hin. rewrite Forall_forall in Hall.
  specialize (Hall a Hin). rewrite Hirr in Hall. discriminate.
Qed.

(** [mItems], from its front: the copies of each key's code, the last key
    first. *)
Lemma encoded_by_codes entries :
  forall currentType,
    encoded entries currentType
    = flat_map (fun p => repeat (snd (snd p)) (Z.to_nat (snd (fst p))))
               (rev (combine entries (assignedCodes entries currentType))).
Proof.
  induction entries as [|[a m] rest IH]; intros c; simpl.
  - reflexivity.
  - rewrite flat_map_app, <- IH. simpl. now rewrite app_nil_r.
Qed.

Lemma construct_inr (W : PlainCombinationWalker) countMap size mode g :
  construct W countMap size mode = inr g ->
  countMap <> []
  /\ mAtomTypeList g = map fst countMap
  /\ mItems g = encoded countMap 0.
Proof.
  intros Hg.
  destruct (reachable_invariant AtomType W countMap size mode g
                                (reach_construct _ _ _ _ _ _ Hg))
    as (H0 & _ & H1 & H2 & _).
  auto.
Qed.

End Codes.

(** C4 (as it holds): for a map of at most [2 ^ 32] distinct keys,
    construction gives the keys the codes 0, 1, 2, ... in ascending key
    order and fills the code-to-atom list so that index [i] holds the key of
    code [i], the i-th smallest; [mItems] is made of these codes; keys and
    codes are in one-to-one correspondence, and all of it is determined by
    the map. *)
Theorem codes_follow_key_order :
  forall (AtomType : Type) (lt : AtomType -> AtomType -> bool)
         (W : PlainCombinationWalker)
         (countMap : AtomType2CountMap AtomType) (size : Z) (mode : Mode)
         (g : LimitedCombination AtomType W),
    construct W countMap size mode = inr g ->
    map_wf lt countMap ->
    irreflexive lt ->
    Z.of_nat (length countMap) <= 2 ^ 32 ->
    mAtomTypeList g = map fst countMap
    /\ StronglySorted (fun a b => lt a b = true) (mAtomTypeList g)
    /\ (forall i atom n,
           nth_error countMap i = Some (atom, n) ->
           nth_error (assignedCodes countMap 0) i = Some (atom, Z.of_nat i)
           /\ nth_error (mAtomTypeList g) (Z.to_nat (Z.of_nat i)) = Some atom)
    /\ mItems g
       = flat_map (fun p => repeat (snd (snd p)) (Z.to_nat (snd (fst p))))
                  (rev (combine countMap (assignedCodes countMap 0)))
    /\ NoDup (map fst (assignedCodes countMap 0))
    /\ NoDup (map snd (assignedCodes countMap 0)).
Proof.
  intros AtomType lt W countMap size mode g Hg [Hsorted Hrange] Hirr Hfit.
  destruct (construct_inr AtomType W countMap size mode g Hg)
    as (Hne & Hlist & Hitems).
  change (2 ^ 32) with CoreType_modulus in Hfit.
  rewrite Hlist, Hitems.
  repeat split.
  - exact Hsorted.
  - assert (Hi : (i < length countMap)%nat)
      by (apply nth_error_Some; congruence).
    rewrite (assignedCodes_nth AtomType countMap 0 i atom n);
      [|unfold CoreType_modulus; lia | assumption].
    rewrite wrap_CoreType_small by lia. reflexivity.
  - rewrite Nat2Z.id, nth_error_map, H. reflexivity.
  - apply encoded_by_codes.
  - rewrite assignedCodes_keys.
    now apply (strictly_ascending_NoDup AtomType lt).
  - rewrite assignedCodes_codes by lia.
    apply NoDup_map_of_nat, seq_NoDup.
Qed.

Lemma string_ltb_irreflexive : irreflexive StringAtoms.ltb.
Proof.
  intros a. unfold StringAtoms.ltb, String.ltb.
  pose proof (String.compare_antisym a a) as H.
  destruct (String.compare a a); simpl in H; congruence.
Qed.

Lemma string_items_wf : map_wf StringAtoms.ltb StringAtoms.items.
Proof.
  split.
  - repeat constructor.
  - repeat constructor; vm_compute; solve [discriminate | reflexivity].
Qed.

Lemma codes_follow_key_order_witness :
  mAtomTypeList StringAtoms.combinations = ["A"; "B"; "C"]%string
  /\ assignedCodes StringAtoms.items 0
     = [("A", 0); ("B", 1); ("C", 2)]%string
  /\ NoDup (map snd (assignedCodes StringAtoms.items 0)).
Proof.
  split; [reflexivity|]. split; [reflexivity|].
  apply (codes_follow_key_order string StringAtoms.ltb PlainWalker.W
                                StringAtoms.items 2 MAX StringAtoms.combinations).
  - reflexivity.
  - exact string_items_wf.
  - exact string_ltb_irreflexive.
  - vm_compute. discriminate.
Defined.

(** C5 (as it holds): for a map of at most [2 ^ 32] distinct keys, the
    encoded item list holds the code of each atom exactly as many times as
    the map says; its length is the sum of the counts, which is
    [totalNumberOfAtoms] of the map when that sum is below [2 ^ 64]; and
    the list depends on the map alone. *)
Theorem items_hold_codes_by_availability :
  forall (AtomType : Type) (lt : AtomType -> AtomType -> bool)
         (W : PlainCombinationWalker)
         (countMap : AtomType2CountMap AtomType) (size : Z) (mode : Mode)
         (g : LimitedCombination AtomType W),
    construct W countMap size mode = inr g ->
    map_wf lt countMap ->
    Z.of_nat (length countMap) <= 2 ^ 32 ->
    (forall i atom n,
        nth_error countMap i = Some (atom, n) ->
        exists code,
          nth_error (assignedCodes countMap 0) i = Some (atom, code)
          /\ Z.of_nat (count_occ Z.eq_dec (mItems g) code) = n)
    /\ Z.of_nat (length (mItems g)) = sum_counts countMap
    /\ (sum_counts countMap < 2 ^ 64 ->
        Z.of_nat (length (mItems g)) = totalNumberOfAtoms countMap)
    /\ (forall size' mode' g',
           construct W countMap size' mode' = inr g' -> mItems g' = mItems g).
Proof.
  intros AtomType lt W countMap size mode g Hg [Hsorted Hrange] Hfit.
  destruct (construct_inr AtomType W countMap size mode g Hg)
    as (Hne & Hlist & Hitems).
  change (2 ^ 32) with CoreType_modulus in Hfit.
  assert (Hlen : Z.of_nat (length (mItems g)) = sum_counts countMap)
    by (rewrite Hitems; now apply encoded_length).
  repeat split.
  - intros i atom n Hi. exists (Z.of_nat i).
    assert (Hlt : (i < length countMap)%nat)
      by (apply nth_error_Some; congruence).
    split.
    + rewrite (assignedCodes_nth AtomType countMap 0 i atom n);
        [|unfold CoreType_modulus; lia | assumption].
      rewrite wrap_CoreType_small by lia. reflexivity.
    + rewrite Hitems.
      change (Z.of_nat i) with (0 + Z.of_nat i).
      rewrite (encoded_count AtomType countMap 0 i atom n) by (assumption || lia).
      apply Z2Nat.id.
      apply nth_error_In in Hi. rewrite Forall_forall in Hrange.
      apply (Hrange _ Hi).
  - exact Hlen.
  - intros Hsum. rewrite Hlen.
    destruct (totalNumberOfAtoms_sum_range AtomType countMap) as [_ H].
    symmetry. apply H. split; [now apply sum_counts_nonneg | exact Hsum].
  - intros size' mode' g' Hg'.
    destruct (construct_inr AtomType W countMap size' mode' g' Hg')
      as (_ & _ & Hitems').
    congruence.
Qed.

Lemma items_hold_codes_by_availability_witness :
  mItems StringAtoms.combinations = [2; 1; 0; 0]
  /\ Z.of_nat (length (mItems StringAtoms.combinations))
     = sum_counts StringAtoms.items.
Proof.
  split; [reflexivity|].
  destruct (items_hold_codes_by_availability
              string StringAtoms.ltb PlainWalker.W
              StringAtoms.items 2 MAX StringAtoms.combinations)
    as (_ & Hlen & _).
  - reflexivity.
  - exact string_items_wf.
  - vm_compute. discriminate.
  - exact Hlen.
Defined.

(** ** More keys than [CoreType] has values *)

Section Crowd.
Import IntegerAtoms.

Lemma one_of_each_nth m :
  forall i, (i < m)%nat -> nth_error (one_of_each m) i = Some (Z.of_nat i, 1).
Proof.
  intros i Hi. unfold one_of_each.
  rewrite nth_error_map.
  rewrite (nth_error_nth' (seq 0 m) 0%nat) by (now rewrite length_seq).
  now rewrite seq_nth.
Qed.

Lemma one_of_each_length m : length (one_of_each m) = m.
Proof. unfold one_of_each. now rewrite length_map, length_seq. Qed.

Lemma one_of_each_sorted len :
  forall start,
    StronglySorted (fun a b => ltb a b = true)
                   (map fst (map (fun i => (Z.of_nat i, 1)) (seq start len))).
Proof.
  induction len as [|len IH]; intros start; simpl; constructor.
  - apply IH.
  - apply Forall_forall. intros b Hb.
    rewrite map_map in Hb. apply in_map_iff in Hb.
    destruct Hb as [i [<- Hi]]. apply in_seq in Hi. simpl.
    apply Z.ltb_lt. lia.
Qed.

Lemma one_of_each_wf m : map_wf ltb (one_of_each m).
Proof.
  split.
  - apply one_of_each_sorted.
  - apply Forall_forall. intros e He. unfold one_of_each in He.
    apply in_map_iff in He. destruct He as [i [<- _]]. simpl.
    unfold size_t_modulus. lia.
Qed.

Lemma one_of_each_sum m : sum_counts (one_of_each m) = Z.of_nat m.
Proof.
  unfold one_of_each, sum_counts. generalize 0%nat.
  induction m as [|m IH]; intros start.
  - reflexivity.
  - cbn [seq map fold_right snd]. rewrite IH. lia.
Qed.

Lemma one_of_each_snoc m :
  one_of_each (S m) = one_of_each m ++ [(Z.of_nat m, 1)].
Proof. unfold one_of_each. now rewrite seq_S, map_app. Qed.

Variable n : nat.
Hypothesis n_is_modulus : Z.of_nat n = CoreType_modulus.

Lemma crowd_constructed size mode :
  construct PlainWalker.W (one_of_each (S n)) size mode
  = inr (prepare PlainWalker.W (one_of_each (S n))
                 (if totalNumberOfAtoms (one_of_each (S n)) <? size
                  then totalNumberOfAtoms (one_of_each (S n)) else size) mode).
Proof.
  apply construct_returns.
  - rewrite one_of_each_snoc. intros H. now apply app_eq_nil in H.
  - rewrite totalNumberOfAtoms_wraps, one_of_each_sum. unfold wrap_size_t.
    rewrite Z.mod_small;
      rewrite Nat2Z.inj_succ, n_is_modulus;
      unfold CoreType_modulus, size_t_modulus; lia.
Qed.

(** The smallest key and the largest one get the same code. *)
Lemma crowd_codes_collide :
  nth_error (assignedCodes (one_of_each (S n)) 0) 0%nat = Some (0, 0)
  /\ nth_error (assignedCodes (one_of_each (S n)) 0) n
     = Some (CoreType_modulus, 0).
Proof.
  assert (Hrange : 0 <= 0 < CoreType_modulus)
    by (unfold CoreType_modulus; lia).
  split.
  - rewrite (assignedCodes_nth Z _ 0 0%nat 0 1 Hrange).
    + reflexivity.
    + apply (one_of_each_nth (S n) 0%nat). lia.
  - rewrite (assignedCodes_nth Z _ 0 n (Z.of_nat n) 1 Hrange).
    + rewrite n_is_modulus. unfold wrap_CoreType.
      now rewrite Z.add_0_l, Z_mod_same_full.
    + apply one_of_each_nth. lia.
Qed.

(** Code 0 is in the items twice at least. *)
Lemma crowd_items_repeat_code :
  (2 <= count_occ Z.eq_dec (encoded (one_of_each (S n)) 0%Z) 0%Z)%nat.
Proof.
  assert (Hrange : 0 <= 0 < CoreType_modulus)
    by (unfold CoreType_modulus; lia).
  rewrite one_of_each_snoc, encoded_app by exact Hrange.
  rewrite one_of_each_length, Z.add_0_l, n_is_modulus.
  unfold wrap_CoreType at 1. rewrite Z_mod_same_full.
  rewrite count_occ_app.
  change (encoded [(Z.of_nat n, 1)] 0) with [0].
  destruct n as [|n'].
  - exfalso. simpl in n_is_modulus. unfold CoreType_modulus in n_is_modulus.
    lia.
  - unfold one_of_each.
    change (seq 0 (S n')) with (0%nat :: seq 1 n').
    simpl map. simpl encoded. rewrite count_occ_app.
    change (repeat 0 (Z.to_nat 1)) with [0].
    simpl count_occ. lia.
Qed.

End Crowd.

Lemma CoreType_modulus_nat : Z.of_nat (Z.to_nat CoreType_modulus) = CoreType_modulus.
Proof. apply Z2Nat.id. unfold CoreType_modulus. lia. Qed.

(** C4 (as stated) fails: among [2 ^ 32 + 1] keys the largest, which should
    get the code [2 ^ 32], gets the code 0, the code of the smallest key. *)
Lemma codes_wrap_around :
  map_wf IntegerAtoms.ltb IntegerAtoms.crowd
  /\ (exists g, construct PlainWalker.W IntegerAtoms.crowd 1 EXACT = inr g)
  /\ nth_error (assignedCodes IntegerAtoms.crowd 0) 0%nat = Some (0, 0)
  /\ nth_error (assignedCodes IntegerAtoms.crowd 0) (Z.to_nat CoreType_modulus)
     = Some (CoreType_modulus, 0).
Proof.
  unfold IntegerAtoms.crowd.
  split; [apply one_of_each_wf|].
  split.
  - eexists. apply (crowd_constructed _ CoreType_modulus_nat).
  - exact (crowd_codes_collide _ CoreType_modulus_nat).
Qed.

(** C5 (as stated) fails: among [2 ^ 32 + 1] keys of one copy each, the
    code of the smallest key is in the encoded item list at least twice. *)
Lemma items_repeat_wrapped_code :
  map_wf IntegerAtoms.ltb IntegerAtoms.crowd
  /\ nth_error IntegerAtoms.crowd 0%nat = Some (0, 1)
  /\ nth_error (assignedCodes IntegerAtoms.crowd 0) 0%nat = Some (0, 0)
  /\ exists g,
      construct PlainWalker.W IntegerAtoms.crowd 1 EXACT = inr g
      /\ (2 <= count_occ Z.eq_dec (mItems g) 0%Z)%nat.
Proof.
  unfold IntegerAtoms.crowd.
  split; [apply one_of_each_wf|].
  split; [apply (one_of_each_nth _ 0%nat); lia|].
  split; [exact (proj1 (crowd_codes_collide _ CoreType_modulus_nat))|].
  eexists. split.
  - apply (crowd_constructed _ CoreType_modulus_nat).
  - rewrite prepare_fields.
    exact (crowd_items_repeat_code _ CoreType_modulus_nat).
Qed.

(** * Further properties of the generator *)

(** ** Decoding *)

Section Decoding.

Variable AtomType : Type.
Implicit Types table atoms : list AtomType.
Implicit Types codes : list Z.

Lemma mapToAtomTypes_loop_app table codes1 codes2 :
  mapToAtomTypes_loop table (codes1 ++ codes2)
  = match mapToAtomTypes_loop table codes1, mapToAtomTypes_loop table codes2 with
    | Some atoms1, Some atoms2 => Some (atoms1 ++ atoms2)
    | _, _ => None
    end.
Proof.
  induction codes1 as [|code rest IH]; simpl.
  - now destruct (mapToAtomTypes_loop table codes2).
  - rewrite IH.
    destruct (nth_error table (Z.to_nat code)); [|reflexivity].
    destruct (mapToAtomTypes_loop table rest); [|reflexivity].
    now destruct (mapToAtomTypes_loop table codes2).
Qed.

Lemma mapToAtomTypes_loop_repeat table code atom n :
  nth_error table (Z.to_nat code) = Some atom ->
  mapToAtomTypes_loop table (repeat code n) = Some (repeat atom n).
Proof.
  intros H. induction n as [|n IH]; simpl.
  - reflexivity.
  - now rewrite H, IH.
Qed.

Lemma mapToAtomTypes_loop_some table codes :
  forall atoms,
    mapToAtomTypes_loop table codes = Some atoms ->
    Forall2 (fun code atom => nth_error table (Z.to_nat code) = Some atom)
            codes atoms.
Proof.
  induction codes as [|code rest IH]; simpl; intros atoms H.
  - injection H as <-. constructor.
  - destruct (nth_error table (Z.to_nat code)) as [atom|] eqn:E; [|discriminate].
    destruct (mapToAtomTypes_loop table rest) as [atoms'|]; [|discriminate].
    injection H as <-. constructor; [exact E | now apply IH].
Qed.

Lemma mapToAtomTypes_loop_none table codes :
  mapToAtomTypes_loop table codes = None ->
  Exists (fun code => (length table <= Z.to_nat code)%nat) codes.
Proof.
  induction codes as [|code rest IH]; simpl; intros H.
  - discriminate.
  - destruct (nth_error table (Z.to_nat code)) as [atom|] eqn:E.
    + destruct (mapToAtomTypes_loop table rest); [discriminate|].
      right. now apply IH.
    + left. now apply nth_error_None.
Qed.

(** The codes of the entries from [pre] on decode to the atoms of these
    entries when the table is the keys in order. *)
Lemma decode_encoded entries :
  forall (pre : list AtomType),
    Z.of_nat (length pre) + Z.of_nat (length entries) <= CoreType_modulus ->
    mapToAtomTypes_loop (pre ++ map fst entries)
                        (encoded entries (Z.of_nat (length pre)))
    = Some (atoms_by_availability entries).
Proof.
  induction entries as [|[atom n] rest IH]; intros pre Hfit.
  - reflexivity.
  - simpl length in Hfit. simpl encoded.
    unfold atoms_by_availability. simpl rev. rewrite flat_map_app. simpl flat_map.
    rewrite app_nil_r, mapToAtomTypes_loop_app.
    assert (Hhere : mapToAtomTypes_loop (pre ++ map fst ((atom, n) :: rest))
                                        (repeat (Z.of_nat (length pre)) (Z.to_nat n))
                    = Some (repeat atom (Z.to_nat n))).
    { apply mapToAtomTypes_loop_repeat.
      rewrite Nat2Z.id. simpl map.
      rewrite nth_error_app2 by lia. now rewrite Nat.sub_diag. }
    rewrite Hhere.
    destruct rest as [|e rest'].
    + reflexivity.
    + rewrite wrap_CoreType_small by (simpl length in Hfit; lia).
      specialize (IH (pre ++ [atom])).
      rewrite length_app in IH. simpl length in IH.
      replace (Z.of_nat (length pre + 1)) with (Z.of_nat (length pre) + 1) in IH by lia.
      rewrite <- app_assoc in IH. simpl app in IH. simpl map.
      simpl map in IH. rewrite IH by (simpl length in *; lia).
      reflexivity.
Qed.

End Decoding.

(** X1: decoding is defined exactly when every code is below the length of
    the code-to-atom table; when it is, it yields one atom per code, in the
    order of the codes, each the table's entry at its code. *)
Theorem mapToAtomTypes_defined_iff :
  forall (AtomType : Type) (W : PlainCombinationWalker)
         (g : LimitedCombination AtomType W) (combination : list Z),
    Forall (fun code => 0 <= code) combination ->
    (mapToAtomTypes g combination <> None
     <-> Forall (fun code => code < Z.of_nat (length (mAtomTypeList g))) combination)
    /\ forall atoms,
        mapToAtomTypes g combination = Some atoms ->
        length atoms = length combination
        /\ Forall2 (fun code atom =>
                      nth_error (mAtomTypeList g) (Z.to_nat code) = Some atom)
                   combination atoms.
Proof.
  intros AtomType W g combination Hnonneg. unfold mapToAtomTypes. split.
  - split.
    + intros Hdef. apply Forall_forall. intros code Hin.
      destruct (Z_lt_le_dec code (Z.of_nat (length (mAtomTypeList g))))
        as [Hlt|Hge]; [exact Hlt|].
      exfalso. apply Hdef. clear Hdef.
      induction combination as [|c rest IH]; [contradiction|].
      simpl. inversion Hnonneg; subst.
      destruct Hin as [->|Hin].
      * assert (E : nth_error (mAtomTypeList g) (Z.to_nat code) = None)
          by (apply nth_error_None; lia).
        now rewrite E.
      * rewrite (IH H2 Hin).
        now destruct (nth_error (mAtomTypeList g) (Z.to_nat c)).
    + intros Hrange.
      assert (H : Forall (fun code => 0 <= code < Z.of_nat (length (mAtomTypeList g)))
                         combination).
      { rewrite Forall_forall in *. intros code Hin.
        split; [now apply Hnonneg | now apply Hrange]. }
      destruct (mapToAtomTypes_loop_defined AtomType _ _ H) as [atoms [E _]].
      rewrite E. discriminate.
  - intros atoms H. apply mapToAtomTypes_loop_some in H.
    split; [|exact H].
    symmetry. eapply Forall2_length. exact H.
Qed.

Lemma mapToAtomTypes_defined_iff_witness :
  mapToAtomTypes StringAtoms.combinations [2; 0; 1] = Some ["C"; "A"; "B"]%string
  /\ mapToAtomTypes StringAtoms.combinations [0; 3] = None
  /\ length ["C"; "A"; "B"]%string = length [2; 0; 1].
Proof.
  split; [reflexivity|]. split; [reflexivity|].
  apply (mapToAtomTypes_defined_iff string PlainWalker.W
                                    StringAtoms.combinations [2; 0; 1]).
  - repeat constructor; discriminate.
  - reflexivity.
Defined.

(** X2: when the map has at most [2 ^ 32] keys, decoding the whole encoded
    item list through the table gives back the atoms of the map, each as
    many times as the map says (the copies of the last key first). *)
Theorem decode_items_round_trip :
  forall (AtomType : Type) (W : PlainCombinationWalker)
         (countMap : AtomType2CountMap AtomType) (size : Z) (mode : Mode)
         (g : LimitedCombination AtomType W),
    construct W countMap size mode = inr g ->
    Z.of_nat (length countMap) <= 2 ^ 32 ->
    mapToAtomTypes g (mItems g) = Some (atoms_by_availability countMap).
Proof.
  intros AtomType W countMap size mode g Hg Hfit.
  destruct (construct_inr AtomType W countMap size mode g Hg)
    as (_ & Hlist & Hitems).
  unfold mapToAtomTypes. rewrite Hlist, Hitems.
  apply (decode_encoded AtomType countMap []). simpl. exact Hfit.
Qed.

Lemma decode_items_round_trip_witness :
  mapToAtomTypes StringAtoms.combinations (mItems StringAtoms.combinations)
  = Some ["C"; "B"; "A"; "A"]%string.
Proof.
  apply (decode_items_round_trip string PlainWalker.W StringAtoms.items 2 MAX
                                 StringAtoms.combinations).
  - reflexivity.
  - vm_compute. discriminate.
Defined.

(** ** What the constructor accepts and what it hands to the walker *)

Section Acceptance.

Variable AtomType : Type.
Implicit Types countMap : AtomType2CountMap AtomType.

Lemma sum_counts_zero_iff countMap :
  Forall (fun e => 0 <= snd e < size_t_modulus) countMap ->
  (sum_counts countMap = 0 <-> Forall (fun e => snd e = 0) countMap).
Proof.
  induction 1 as [|e rest He Hrest IH].
  - split; [constructor | reflexivity].
  - pose proof (sum_counts_nonneg AtomType rest Hrest) as Hnn.
    change (sum_counts (e :: rest)) with (snd e + sum_counts rest).
    split.
    + intros Hsum. constructor; [lia|]. apply IH. lia.
    + intros Hall. inversion Hall as [|e' l' He0 Hall']; subst.
      apply IH in Hall'. lia.
Qed.

End Acceptance.

(** X3: when the counts are [size_t] values whose sum does not overflow,
    the constructor throws exactly for the maps in which no atom has a copy,
    the empty map among them. *)
Theorem construct_refuses_exactly_barren_maps :
  forall (AtomType : Type) (W : PlainCombinationWalker)
         (countMap : AtomType2CountMap AtomType) (size : Z) (mode : Mode),
    Forall (fun e => 0 <= snd e < 2 ^ 64) countMap ->
    sum_counts countMap < 2 ^ 64 ->
    (construct W countMap size mode = inl invalid_argument
     <-> Forall (fun e => snd e = 0) countMap).
Proof.
  intros AtomType W countMap size mode Hrange Hsum.
  change (2 ^ 64) with size_t_modulus in Hrange.
  pose proof (sum_counts_nonneg AtomType countMap Hrange) as Hnn.
  destruct (totalNumberOfAtoms_sum_range AtomType countMap) as [_ Htotal].
  specialize (Htotal (conj Hnn Hsum)).
  rewrite construct_throws_iff, Htotal, <- (sum_counts_zero_iff AtomType countMap Hrange).
  split; [|tauto].
  intros [->|H]; [reflexivity | exact H].
Qed.

Lemma construct_refuses_exactly_barren_maps_witness :
  construct PlainWalker.W IntegerAtoms.barren 1 EXACT = inl invalid_argument
  /\ construct PlainWalker.W IntegerAtoms.sparse 1 EXACT <> inl invalid_argument.
Proof.
  split.
  - apply (construct_refuses_exactly_barren_maps
             Z PlainWalker.W IntegerAtoms.barren 1 EXACT).
    + repeat constructor; vm_compute; solve [discriminate | reflexivity].
    + reflexivity.
    + repeat constructor.
  - intros H.
    apply (construct_refuses_exactly_barren_maps
             Z PlainWalker.W IntegerAtoms.sparse 1 EXACT) in H.
    + inversion H as [|e l He Hl]. discriminate He.
    + repeat constructor; vm_compute; solve [discriminate | reflexivity].
    + reflexivity.
Defined.

(** X4: the walker of a constructed generator is built over the encoded
    item list with the stored size and mode; the stored size is the smaller
    of the requested size and [totalNumberOfAtoms], and it never exceeds the
    number of items. *)
Theorem walker_size_within_items :
  forall (AtomType : Type) (W : PlainCombinationWalker)
         (countMap : AtomType2CountMap AtomType) (size : Z) (mode : Mode)
         (g : LimitedCombination AtomType W),
    construct W countMap size mode = inr g ->
    Forall (fun e => 0 <= snd e < 2 ^ 64) countMap ->
    mSize g = Z.min size (totalNumberOfAtoms countMap)
    /\ mSize g <= Z.of_nat (length (mItems g))
    /\ mMode g = mode
    /\ mpItemCombinationGenerator g
       = Combination_new W (mItems g) (mSize g) (mMode g).
Proof.
  intros AtomType W countMap size mode g Hg Hrange.
  change (2 ^ 64) with size_t_modulus in Hrange.
  destruct (construct_inr AtomType W countMap size mode g Hg)
    as (Hne & _ & Hitems).
  assert (Hlen : Z.of_nat (length (mItems g)) = sum_counts countMap)
    by (rewrite Hitems; now apply encoded_length).
  assert (Htotal : totalNumberOfAtoms countMap <= sum_counts countMap).
  { rewrite totalNumberOfAtoms_wraps. unfold wrap_size_t.
    apply Z.mod_le; [now apply sum_counts_nonneg | apply size_t_modulus_pos]. }
  unfold construct in Hg.
  destruct (empty countMap || (totalNumberOfAtoms countMap =? 0)); [discriminate|].
  injection Hg as <-. rewrite prepare_fields in *. simpl in *.
  repeat split.
  - destruct (Z.ltb_spec (totalNumberOfAtoms countMap) size); lia.
  - destruct (Z.ltb_spec (totalNumberOfAtoms countMap) size); lia.
Qed.

Lemma walker_size_within_items_witness :
  mSize StringAtoms.combinations = 2
  /\ mSize StringAtoms.combinations
     <= Z.of_nat (length (mItems StringAtoms.combinations)).
Proof.
  split; [reflexivity|].
  destruct (walker_size_within_items string PlainWalker.W StringAtoms.items 2 MAX
                                     StringAtoms.combinations)
    as (_ & Hle & _).
  - reflexivity.
  - repeat constructor; vm_compute; solve [discriminate | reflexivity].
  - exact Hle.
Defined.

(** X5: [next()] touches nothing but the walker: after any number of calls
    the availability map, the code-to-atom table, the items, the size and
    the mode are as before, the walker is the one [next()] of the walker
    leads to, and the answer is the walker's answer. *)
Theorem next_advances_walker_only :
  forall (AtomType : Type) (W : PlainCombinationWalker)
         (g : LimitedCombination AtomType W) (n : nat),
    mAtomTypeAvailablilityMap (advance n g) = mAtomTypeAvailablilityMap g
    /\ mAtomTypeList (advance n g) = mAtomTypeList g
    /\ mItems (advance n g) = mItems g
    /\ mSize (advance n g) = mSize g
    /\ mMode (advance n g) = mMode g
    /\ mpItemCombinationGenerator (advance n g)
       = Combination_advance W n (mpItemCombinationGenerator g)
    /\ fst (next (advance n g))
       = fst (Combination_next
                W (Combination_advance W n (mpItemCombinationGenerator g))).
Proof.
  intros AtomType W g n. revert g.
  induction n as [|n IH]; intros g.
  - simpl. repeat split.
    now destruct (next_fields AtomType W g) as (_ & _ & _ & _ & _ & _ & H).
  - simpl advance. simpl Combination_advance.
    destruct (IH (snd (next g))) as (I1 & I2 & I3 & I4 & I5 & I6 & I7).
    destruct (next_fields AtomType W g) as (H1 & H2 & H3 & H4 & H5 & H6 & _).
    rewrite I1, I2, I3, I4, I5, I6, I7, H1, H2, H3, H4, H5, H6.
    repeat split.
Qed.

(** X6: what [current()] returns is a rearrangement of the decoded
    combination of the walker, so it has as many atoms as the walker's
    combination has codes. *)
Theorem current_keeps_size :
  forall (AtomType : Type) (lt : AtomType -> AtomType -> bool)
         (W : PlainCombinationWalker) (g : LimitedCombination AtomType W)
         (l : list AtomType),
    fst (current lt g) = Some l ->
    length l = length (Combination_current W (mpItemCombinationGenerator g))
    /\ exists atoms,
        mapToAtomTypes g (Combination_current W (mpItemCombinationGenerator g))
        = Some atoms
        /\ Permutation atoms l.
Proof.
  intros AtomType lt W g l H. unfold current in H. simpl in H.
  destruct (mapToAtomTypes g (Combination_current W (mpItemCombinationGenerator g)))
    as [atoms|] eqn:E; [|discriminate].
  simpl in H. injection H as <-.
  pose proof (sort_perm AtomType lt atoms) as Hperm.
  split.
  - rewrite <- (Permutation_length Hperm).
    unfold mapToAtomTypes in E. apply mapToAtomTypes_loop_some in E.
    symmetry. eapply Forall2_length. exact E.
  - exists atoms. split; [reflexivity | exact Hperm].
Qed.

Lemma current_keeps_size_witness :
  length ["A"; "C"]%string
  = length (Combination_current
              PlainWalker.W
              (mpItemCombinationGenerator (advance 5 StringAtoms.combinations))).
Proof.
  apply (current_keeps_size string StringAtoms.ltb PlainWalker.W
                            (advance 5 StringAtoms.combinations)).
  reflexivity.
Defined.

(** ** The sorted result does not depend on the walker's order *)

Section Canonical.

Variable AtomType : Type.
Variable lt : AtomType -> AtomType -> bool.
Hypothesis lt_asym : asymmetric lt.
Hypothesis lt_trans : transitive_lt lt.
Hypothesis lt_total : trichotomous lt.

Ltac order_case :=
  match goal with
  | |- context [if lt ?a ?b then _ else _] =>
      let E := fresh "E" in destruct (lt a b) eqn:E
  end.

Ltac order_done :=
  try reflexivity;
  try (exfalso;
       match goal with
       | H1 : lt ?a ?b = true, H2 : lt ?b ?a = true |- _ =>
           apply lt_asym in H1; congruence
       | H1 : lt ?a ?b = true, H2 : lt ?b ?c = true, H3 : lt ?a ?c = false |- _ =>
           rewrite (lt_trans a b c H1 H2) in H3; discriminate
       end);
  try match goal with
      | H1 : lt ?a ?b = false, H2 : lt ?b ?a = false |- _ =>
          rewrite (lt_total a b H1 H2) in *; reflexivity
      end.

Lemma sort_insert_comm (l : list AtomType) :
  forall x y,
    sort_insert lt x (sort_insert lt y l) = sort_insert lt y (sort_insert lt x l).
Proof.
  induction l as [|z l IH]; intros x y; simpl.
  - repeat order_case; order_done.
  - destruct (lt y z) eqn:Eyz; destruct (lt x z) eqn:Exz; simpl;
      rewrite ?Eyz, ?Exz; repeat order_case; order_done.
    now rewrite IH.
Qed.

Lemma sort_permutation (l1 l2 : list AtomType) :
  Permutation l1 l2 -> sort lt l1 = sort lt l2.
Proof.
  induction 1 as [|x l1 l2 _ IH|x y l|l1 l2 l3 _ IH1 _ IH2]; simpl.
  - reflexivity.
  - now rewrite IH.
  - apply sort_insert_comm.
  - congruence.
Qed.

Lemma mapToAtomTypes_loop_permutation (table : list AtomType) (codes1 codes2 : list Z) :
  Permutation codes1 codes2 ->
  forall atoms1,
    mapToAtomTypes_loop table codes1 = Some atoms1 ->
    exists atoms2,
      mapToAtomTypes_loop table codes2 = Some atoms2 /\ Permutation atoms1 atoms2.
Proof.
  induction 1 as [|c l1 l2 _ IH|c d l|l1 l2 l3 _ IH1 _ IH2]; intros atoms1 H;
    simpl in *.
  - exists atoms1. split; [exact H | reflexivity].
  - destruct (nth_error table (Z.to_nat c)) as [a|]; [|discriminate].
    destruct (mapToAtomTypes_loop table l1) as [r|]; [|discriminate].
    injection H as <-. destruct (IH r eq_refl) as [r2 [E P]].
    rewrite E. exists (a :: r2). split; [reflexivity | now constructor].
  - destruct (nth_error table (Z.to_nat d)) as [b|]; [|discriminate].
    destruct (nth_error table (Z.to_nat c)) as [a|]; [|discriminate].
    destruct (mapToAtomTypes_loop table l) as [r|]; [|discriminate].
    injection H as <-. exists (a :: b :: r). split; [reflexivity | constructor].
  - destruct (IH1 atoms1 H) as [atoms2 [E2 P2]].
    destruct (IH2 atoms2 E2) as [atoms3 [E3 P3]].
    exists atoms3. split; [exact E3 | now rewrite P2].
Qed.

End Canonical.

(** X7: for a strict total order on the atoms, [current()] depends on the
    walker's combination only as a multiset: two generators with the same
    table whose walkers hold rearrangements of the same codes return the
    same sequence; and sorting what [current()] returned changes nothing. *)
Theorem current_canonical :
  forall (AtomType : Type) (lt : AtomType -> AtomType -> bool)
         (W : PlainCombinationWalker) (g1 g2 : LimitedCombination AtomType W),
    asymmetric lt -> transitive_lt lt -> trichotomous lt ->
    mAtomTypeList g1 = mAtomTypeList g2 ->
    Permutation (Combination_current W (mpItemCombinationGenerator g1))
                (Combination_current W (mpItemCombinationGenerator g2)) ->
    fst (current lt g1) = fst (current lt g2)
    /\ forall l, fst (current lt g1) = Some l -> sort lt l = l.
Proof.
  intros AtomType lt W g1 g2 Hasym Htrans Htotal Htable Hperm.
  unfold current, mapToAtomTypes. simpl. rewrite <- Htable.
  split.
  - destruct (mapToAtomTypes_loop (mAtomTypeList g1)
                (Combination_current W (mpItemCombinationGenerator g1)))
      as [atoms1|] eqn:E1.
    + destruct (mapToAtomTypes_loop_permutation AtomType _ _ _ Hperm atoms1 E1)
        as [atoms2 [E2 P]].
      rewrite E2. simpl. f_equal.
      now apply sort_permutation.
    + destruct (mapToAtomTypes_loop (mAtomTypeList g1)
                  (Combination_current W (mpItemCombinationGenerator g2)))
        as [atoms2|] eqn:E2; [|reflexivity].
      symmetry in Hperm.
      destruct (mapToAtomTypes_loop_permutation AtomType _ _ _ Hperm atoms2 E2)
        as [atoms1 [E1' _]].
      congruence.
  - intros l H.
    destruct (mapToAtomTypes_loop (mAtomTypeList g1)
                (Combination_current W (mpItemCombinationGenerator g1)))
      as [atoms1|]; [|discriminate].
    simpl in H. injection H as <-.
    apply sort_permutation; try assumption.
    symmetry. apply sort_perm.
Qed.

Lemma integer_ltb_asymmetric : asymmetric IntegerAtoms.ltb.
Proof.
  intros a b H. apply Z.ltb_lt in H. apply Z.ltb_ge. lia.
Qed.

Lemma integer_ltb_transitive : transitive_lt IntegerAtoms.ltb.
Proof.
  intros a b c H1 H2. apply Z.ltb_lt in H1, H2. apply Z.ltb_lt. lia.
Qed.

Lemma integer_ltb_trichotomous : trichotomous IntegerAtoms.ltb.
Proof.
  intros a b H1 H2. apply Z.ltb_ge in H1, H2. lia.
Qed.

Lemma current_canonical_witness :
  fst (current IntegerAtoms.ltb (IntegerAtoms.at_cursor [[2; 0; 1]]))
  = fst (current IntegerAtoms.ltb (IntegerAtoms.at_cursor [[0; 1; 2]]))
  /\ fst (current IntegerAtoms.ltb (IntegerAtoms.at_cursor [[2; 0; 1]]))
     = Some [10; 20; 30].
Proof.
  split; [|reflexivity].
  apply (current_canonical Z IntegerAtoms.ltb PlainWalker.W
                           (IntegerAtoms.at_cursor [[2; 0; 1]])
                           (IntegerAtoms.at_cursor [[0; 1; 2]])
                           integer_ltb_asymmetric integer_ltb_transitive
                           integer_ltb_trichotomous).
  - reflexivity.
  - simpl. apply Permutation_sym.
    apply (perm_trans (l' := [0; 2; 1])).
    + apply perm_skip, perm_swap.
    + apply perm_swap.
Defined.

(** ** Availability *)

Section Availability.

Variable AtomType : Type.
Variable eq_dec : forall a b : AtomType, {a = b} + {a <> b}.

Lemma decode_count (table atoms : list AtomType) (codes : list Z) i atom :
  NoDup table ->
  Forall (fun code => 0 <= code) codes ->
  Forall2 (fun code a => nth_error table (Z.to_nat code) = Some a) codes atoms ->
  nth_error table i = Some atom ->
  count_occ eq_dec atoms atom = count_occ Z.eq_dec codes (Z.of_nat i).
Proof.
  intros Hnodup Hnonneg Hdec Hi.
  induction Hdec as [|code a codes atoms Hcode _ IH]; [reflexivity|].
  inversion Hnonneg as [|c l Hc Hrest]; subst. specialize (IH Hrest).
  simpl.
  destruct (eq_dec a atom) as [->|Hna]; destruct (Z.eq_dec code (Z.of_nat i)) as [->|Hnc].
  - now rewrite IH.
  - exfalso. apply Hnc.
    assert (Hlt : (Z.to_nat code < length table)%nat)
      by (apply nth_error_Some; congruence).
    assert (E : Z.to_nat code = i)
      by (apply (proj1 (NoDup_nth_error table) Hnodup); [exact Hlt | congruence]).
    lia.
  - exfalso. apply Hna. rewrite Nat2Z.id in Hcode. congruence.
  - exact IH.
Qed.

Lemma encoded_origin (entries : AtomType2CountMap AtomType) :
  forall currentType code,
    0 <= currentType < CoreType_modulus ->
    In code (encoded entries currentType) ->
    exists i atom n,
      nth_error entries i = Some (atom, n)
      /\ code = wrap_CoreType (currentType + Z.of_nat i)
      /\ 0 < n.
Proof.
  induction entries as [|[a m] rest IH]; intros c code Hc Hin; simpl in Hin.
  - contradiction.
  - apply in_app_or in Hin. destruct Hin as [Hin|Hin].
    + destruct (IH _ _ (wrap_CoreType_range (c + 1)) Hin) as (i & atom & n & Hi & Hcode & Hn).
      exists (S i), atom, n. repeat split; [exact Hi | | exact Hn].
      rewrite Hcode. unfold wrap_CoreType.
      rewrite Zplus_mod_idemp_l. f_equal. lia.
    + exists 0%nat, a, m. repeat split.
      * apply repeat_spec in Hin. rewrite Z.add_0_r.
        now rewrite wrap_CoreType_small.
      * destruct (Z.to_nat m) eqn:E; [contradiction | lia].
Qed.

End Availability.

(** X8: for a map of at most [2 ^ 32] keys, if the walker's combination
    takes no code more often than the encoded item list holds it, then
    [current()] is defined and returns no atom more often than the map
    makes it available. *)
Theorem current_respects_availability :
  forall (AtomType : Type) (lt : AtomType -> AtomType -> bool)
         (eq_dec : forall a b : AtomType, {a = b} + {a <> b})
         (W : PlainCombinationWalker)
         (countMap : AtomType2CountMap AtomType) (size : Z) (mode : Mode)
         (g : LimitedCombination AtomType W),
    reachable W countMap size mode g ->
    map_wf lt countMap ->
    irreflexive lt ->
    Z.of_nat (length countMap) <= 2 ^ 32 ->
    (forall code,
        (count_occ Z.eq_dec
                   (Combination_current W (mpItemCombinationGenerator g)) code
         <= count_occ Z.eq_dec (mItems g) code)%nat) ->
    exists l,
      fst (current lt g) = Some l
      /\ forall atom n,
          In (atom, n) countMap -> Z.of_nat (count_occ eq_dec l atom) <= n.
Proof.
  intros AtomType lt eq_dec W countMap size mode g Hreach [Hsorted Hrange]
         Hirr Hfit Hmulti.
  change (2 ^ 32) with CoreType_modulus in Hfit.
  destruct (reachable_invariant AtomType W countMap size mode g Hreach)
    as (_ & _ & Hlist & Hitems & _).
  assert (Hcur : Forall (fun code => 0 <= code < Z.of_nat (length (mAtomTypeList g)))
                        (Combination_current W (mpItemCombinationGenerator g))).
  { apply Forall_forall. intros code Hin.
    apply (count_occ_In Z.eq_dec) in Hin.
    pose proof (Hmulti code) as Hm.
    assert (Hin' : In code (mItems g)) by (apply (count_occ_In Z.eq_dec); lia).
    rewrite Hlist. rewrite Hitems in Hin'. clear Hin Hm.
    revert code Hin'. apply Forall_forall, items_in_bounds. }
  destruct (mapToAtomTypes_loop_defined AtomType _ _ Hcur) as [atoms [E HF]].
  exists (sort lt atoms). split.
  - unfold current, mapToAtomTypes. simpl. now rewrite E.
  - intros atom n Hin.
    destruct (In_nth_error _ _ Hin) as [i Hi].
    assert (Hlt : (i < length countMap)%nat)
      by (apply nth_error_Some; congruence).
    assert (Hn : 0 <= n).
    { rewrite Forall_forall in Hrange. apply (Hrange _ Hin). }
    rewrite <- (proj1 (Permutation_count_occ eq_dec _ _) (sort_perm AtomType lt atoms)).
    rewrite (decode_count AtomType eq_dec (mAtomTypeList g) atoms
                          (Combination_current W (mpItemCombinationGenerator g))
                          i atom).
    + specialize (Hmulti (Z.of_nat i)). rewrite Hitems in Hmulti.
      change (Z.of_nat i) with (0 + Z.of_nat i) in Hmulti at 2.
      rewrite (encoded_count AtomType countMap 0 i atom n) in Hmulti
        by (assumption || lia).
      lia.
    + rewrite Hlist. now apply (strictly_ascending_NoDup AtomType lt).
    + apply Forall_forall. intros code Hc.
      rewrite Forall_forall in Hcur. apply (Hcur code Hc).
    + exact HF.
    + rewrite Hlist, nth_error_map, Hi. reflexivity.
Qed.

Lemma current_respects_availability_witness :
  exists l,
    fst (current StringAtoms.ltb (advance 3 StringAtoms.combinations)) = Some l
    /\ forall atom n,
        In (atom, n) StringAtoms.items ->
        Z.of_nat (count_occ string_dec l atom) <= n.
Proof.
  apply (current_respects_availability
           string StringAtoms.ltb string_dec PlainWalker.W
           StringAtoms.items 2 MAX (advance 3 StringAtoms.combinations)).
  - change (advance 3 StringAtoms.combinations)
      with (snd (next (snd (next (snd (next StringAtoms.combinations)))))).
    do 3 apply reach_next. apply reach_construct. reflexivity.
  - exact string_items_wf.
  - exact string_ltb_irreflexive.
  - vm_compute. discriminate.
  - intros code.
    change (Combination_current
              PlainWalker.W
              (mpItemCombinationGenerator (advance 3 StringAtoms.combinations)))
      with [0; 0].
    change (mItems (advance 3 StringAtoms.combinations)) with [2; 1; 0; 0].
    cbn [count_occ].
    repeat match goal with
           | |- context [Z.eq_dec ?a ?b] => destruct (Z.eq_dec a b)
           end; lia.
Defined.

(** X9: for a map of at most [2 ^ 32] keys, if the walker emits only codes
    that occur in the encoded item list, every atom [current()] returns is
    a key of the map with at least one copy; a key without copies is never
    returned. *)
Theorem current_returns_available_atoms :
  forall (AtomType : Type) (lt : AtomType -> AtomType -> bool)
         (W : PlainCombinationWalker)
         (countMap : AtomType2CountMap AtomType) (size : Z) (mode : Mode)
         (g : LimitedCombination AtomType W) (l : list AtomType),
    reachable W countMap size mode g ->
    Z.of_nat (length countMap) <= 2 ^ 32 ->
    incl (Combination_current W (mpItemCombinationGenerator g)) (mItems g) ->
    fst (current lt g) = Some l ->
    forall atom, In atom l -> exists n, In (atom, n) countMap /\ 0 < n.
Proof.
  intros AtomType lt W countMap size mode g l Hreach Hfit Hincl Hcur atom Hin.
  change (2 ^ 32) with CoreType_modulus in Hfit.
  destruct (reachable_invariant AtomType W countMap size mode g Hreach)
    as (_ & _ & Hlist & Hitems & _).
  unfold current, mapToAtomTypes in Hcur. simpl in Hcur.
  destruct (mapToAtomTypes_loop (mAtomTypeList g)
              (Combination_current W (mpItemCombinationGenerator g)))
    as [atoms|] eqn:E; [|discriminate].
  simpl in Hcur. injection Hcur as <-.
  apply (Permutation_in _ (Permutation_sym (sort_perm AtomType lt atoms))) in Hin.
  apply mapToAtomTypes_loop_some in E.
  assert (Hcode : exists code,
             In code (Combination_current W (mpItemCombinationGenerator g))
             /\ nth_error (mAtomTypeList g) (Z.to_nat code) = Some atom).
  { clear Hincl. induction E as [|code a codes atoms' Hc _ IH].
    - contradiction.
    - destruct Hin as [->|Hin].
      + exists code. split; [now left | exact Hc].
      + destruct (IH Hin) as [code' [H1 H2]]. exists code'. split; [now right | exact H2]. }
  destruct Hcode as [code [Hcode Hnth]].
  apply Hincl in Hcode. rewrite Hitems in Hcode.
  assert (Hrange : 0 <= 0 < CoreType_modulus) by (unfold CoreType_modulus; lia).
  destruct (encoded_origin AtomType countMap 0 code Hrange Hcode)
    as (i & atom' & n & Hi & Hwrap & Hn).
  assert (Hlt : (i < length countMap)%nat)
    by (apply nth_error_Some; congruence).
  rewrite wrap_CoreType_small in Hwrap by lia.
  subst code. rewrite Z.add_0_l, Nat2Z.id, Hlist, nth_error_map, Hi in Hnth.
  simpl in Hnth. injection Hnth as <-.
  exists n. split; [|exact Hn].
  eapply nth_error_In. exact Hi.
Qed.

Lemma current_returns_available_atoms_witness :
  fst (current IntegerAtoms.ltb (prepare PlainWalker.W IntegerAtoms.sparse 3 EXACT))
  = Some [10; 30; 30]
  /\ forall atom, In atom [10; 30; 30] ->
                  exists n, In (atom, n) IntegerAtoms.sparse /\ 0 < n.
Proof.
  split; [reflexivity|].
  apply (current_returns_available_atoms
           Z IntegerAtoms.ltb PlainWalker.W IntegerAtoms.sparse 3 EXACT
           (prepare PlainWalker.W IntegerAtoms.sparse 3 EXACT)).
  - apply reach_construct. reflexivity.
  - vm_compute. discriminate.
  - intros code Hin. vm_compute in Hin. vm_compute. tauto.
  - reflexivity.
Defined.

(** ** The layout of the encoded item list *)

Section Layout.

Variable AtomType : Type.

Lemma descending_app (l1 l2 : list Z) :
  StronglySorted (fun a b => b <= a) l1 ->
  StronglySorted (fun a b => b <= a) l2 ->
  (forall x y, In x l1 -> In y l2 -> y <= x) ->
  StronglySorted (fun a b => b <= a) (l1 ++ l2).
Proof.
  induction 1 as [|x l1 Hl1 IH Hx]; intros Hl2 Hcross; simpl.
  - exact Hl2.
  - constructor.
    + apply IH; [exact Hl2|]. intros a b Ha Hb. apply Hcross; [now right | exact Hb].
    + apply Forall_app. split; [exact Hx|].
      apply Forall_forall. intros y Hy. apply Hcross; [now left | exact Hy].
Qed.

Lemma descending_repeat (c : Z) (n : nat) :
  StronglySorted (fun a b => b <= a) (repeat c n).
Proof.
  induction n as [|n IH]; simpl; constructor; [exact IH|].
  apply Forall_forall. intros y Hy. apply repeat_spec in Hy. lia.
Qed.

Lemma encoded_descending (entries : AtomType2CountMap AtomType) :
  forall currentType,
    0 <= currentType ->
    currentType + Z.of_nat (length entries) <= CoreType_modulus ->
    StronglySorted (fun a b => b <= a) (encoded entries currentType).
Proof.
  induction entries as [|[a m] rest IH]; intros c Hc Hfit; simpl.
  - constructor.
  - simpl length in Hfit. apply descending_app.
    + destruct rest as [|e rest']; [constructor|].
      rewrite wrap_CoreType_small by (simpl length in Hfit; lia).
      apply IH; lia.
    + apply descending_repeat.
    + intros x y Hx Hy. apply repeat_spec in Hy. subst y.
      destruct rest as [|e rest']; [contradiction|].
      rewrite wrap_CoreType_small in Hx by (simpl length in Hfit; lia).
      apply encoded_lower in Hx; lia.
Qed.

End Layout.

(** X10: for a map of at most [2 ^ 32] keys the encoded item list is in
    descending order of the codes: every entry is inserted in front of the
    items of the keys before it, so the copies of the largest key come
    first and those of the smallest key last. *)
Theorem items_descending :
  forall (AtomType : Type) (W : PlainCombinationWalker)
         (countMap : AtomType2CountMap AtomType) (size : Z) (mode : Mode)
         (g : LimitedCombination AtomType W),
    construct W countMap size mode = inr g ->
    Z.of_nat (length countMap) <= 2 ^ 32 ->
    StronglySorted (fun a b => b <= a) (mItems g).
Proof.
  intros AtomType W countMap size mode g Hg Hfit.
  destruct (construct_inr AtomType W countMap size mode g Hg)
    as (_ & _ & Hitems).
  rewrite Hitems. apply encoded_descending; [lia | exact Hfit].
Qed.

Lemma items_descending_witness :
  mItems StringAtoms.combinations = [2; 1; 0; 0]
  /\ StronglySorted (fun a b => b <= a) (mItems StringAtoms.combinations).
Proof.
  split; [reflexivity|].
  apply (items_descending string PlainWalker.W StringAtoms.items 2 MAX
                          StringAtoms.combinations).
  - reflexivity.
  - vm_compute. discriminate.
Defined.

(** ** Construction and the room in the item vector *)

Section Capacity.

Variable AtomType : Type.
Variable W : PlainCombinationWalker.
Implicit Types countMap entries : AtomType2CountMap AtomType.









End Capacity.






